(** * Knowledge-graph to D3 converter: the transform core of [convert_to_d3.py]

    A shallow embedding of the pure pipeline of [src/convert_to_d3.py]
    (group table, relation tally, node and link extraction, integrity
    validation, graph assembly) together with the properties stated about it.

    Conventions of the embedding.
    - Python [str] is [string]: a UTF-8 byte sequence.  Comparing UTF-8
      byte-wise is comparing by code point, which is how Python orders [str],
      so [String.le] is the order [sorted] uses on labels.
    - A raw record is a Python [dict]; the program only ever reads the keys
      listed in the records below, each of which may be absent ([None] here).
      Their values are typed as the annotations of the source and the data
      model give them ([str] labels and identifiers, a list of [str]
      observations).
    - Python [int] counters and indices are [nat].
    - A raised exception is an [Err] result; the statements after the raise
      are not run.
    - [print] is a list of emitted lines.
    - A Python [set] that is only tested for membership and emptiness is a
      [gset].  A [set] that is enumerated ([list(s)]) is kept as the sequence
      of the values added to it, [py_set]: the order of the enumeration is
      not fixed by the program, it is a parameter of a run, [py_runtime]. *)

From Stdlib Require Import Sorted Permutation.
From stdpp Require Import gmap strings list fin_maps sorting.

#[local] Set Warnings "-clear-no-such-hyp".

(** ** Exceptions and results *)

Inductive error :=
  | KeyError (key : string)
  | ValueError (msg : string).

Inductive result (A : Type) :=
  | Ok (a : A)
  | Err (e : error).
Arguments Ok {A} a.
Arguments Err {A} e.

(** Sequencing: [x ← r; k] runs [k] on the value of [r], or propagates the
    exception [r] raised. *)
Global Instance result_bind : MBind result := λ A B k r,
  match r with
  | Ok a => k a
  | Err e => Err e
  end.

(** [d[key]] on a dictionary whose entry for [key] is [v]. *)
Definition subscript {A} (key : string) (v : option A) : result A :=
  match v with
  | Some a => Ok a
  | None => Err (KeyError key)
  end.

Global Instance error_eq_dec : EqDecision error.
Proof. solve_decision. Defined.

(** ** Data model *)

(** An element of the [entities] array. *)
Record raw_entity := {
  e_type : option string;
  e_name : option string;
  e_entityType : option string;
  e_observations : option (list string);
}.

(** An element of the [relations] array. *)
Record raw_relation := {
  r_type : option string;
  r_from : option string;
  r_to : option string;
  r_relationType : option string;
}.

Record node := {
  node_id : string;
  node_type : string;
  node_observations : list string;
  node_group : nat;
}.

Record link := {
  link_source : string;
  link_target : string;
  link_type : string;
  link_value : nat;
}.

Record metadata := {
  nodeCount : nat;
  linkCount : nat;
  entityTypes : list string;
  relationTypes : list string;
  generatedAt : string;
  source : string;
}.

Record d3_graph := {
  nodes : list node;
  links : list link;
  graph_metadata : metadata;
}.

(** The decoded [content] object: either key may be missing. *)
Record content := {
  entities : option (list raw_entity);
  relations : option (list raw_relation);
}.

(** ** Enumerated sets and the Python runtime of one run *)

(** The values added to a set, in the order of the additions. *)
Definition py_set := list string.

(** [s.add(x)]. *)
Definition set_add (s : py_set) (x : string) : py_set := s ++ [x].

(** [list(s)] enumerates the elements of the set [s], each once, in an order
    the program does not control: it depends on the hashes of the strings,
    which are salted per process, and on the history of the additions. *)
Record py_runtime := {
  set_order : py_set → list string;
  set_order_NoDup : ∀ s, NoDup (set_order s);
  set_order_elem_of : ∀ s x, x ∈ set_order s ↔ x ∈ s;
}.

(** [sorted] on a list of [str]: the sorted permutation of the list, which
    is unique for a total order, so any sorting algorithm stands for
    Python's. *)
Definition sorted (l : list string) : list string := merge_sort String.le l.

(** ** Group Assigner *)

Definition entity_label (entity : raw_entity) : string :=
  default "Unknown" (e_entityType entity).

(** The loop of [extract_groups]: [groups.add(group)] for every element. *)
Definition collect_groups (entities : list raw_entity) : py_set :=
  foldl (λ groups entity, set_add groups (entity_label entity)) [] entities.

Definition extract_groups (rt : py_runtime) (entities : list raw_entity)
  : list string :=
  sorted (set_order rt (collect_groups entities)).

(** [l.index(x)]: the position of the first occurrence. *)
Fixpoint list_index (x : string) (l : list string) : option nat :=
  match l with
  | [] => None
  | y :: l' => if decide (y = x) then Some 0 else S <$> list_index x l'
  end.

Definition _get_group_index (entity_type : string) (groups : list string)
  : nat :=
  if decide (entity_type ∈ groups)
  then default 0 (list_index entity_type groups)
  else 0.

(** ** Relation Tally *)

Definition relation_label (relation : raw_relation) : string :=
  default "Unknown" (r_relationType relation).

(** One iteration of the loop of [extract_relation_types]:
    [relation_types.update({rel_type: relation_types.get(rel_type, 0) + 1})].
    ([get] on a [defaultdict] does not call its factory, so an unseen type
    reads as [0].) *)
Definition count_relation (relation_types : gmap string nat)
    (relation : raw_relation) : gmap string nat :=
  let rel_type := relation_label relation in
  <[rel_type := default 0 (relation_types !! rel_type) + 1]> relation_types.

Definition extract_relation_types (relations : list raw_relation)
  : gmap string nat :=
  foldl count_relation ∅ relations.

Definition _get_relation_strength (relation_type : string)
    (relation_types : gmap string nat) : nat :=
  default 0 (relation_types !! relation_type).

(** [sum(relation_types.values())]. *)
Definition sum_values (relation_types : gmap string nat) : nat :=
  map_fold (λ _ count total, count + total) 0 relation_types.

(** ** Node Extractor *)

(** The loop of [extract_nodes], with the list [nodes] built so far. *)
Fixpoint extract_nodes_loop (existing_groups : list string)
    (nodes : list node) (entities : list raw_entity) : result (list node) :=
  match entities with
  | [] => Ok nodes
  | entity :: entities =>
      if decide (e_type entity ≠ Some "entity")
      then extract_nodes_loop existing_groups nodes entities
      else
        name ← subscript "name" (e_name entity);
        let node := {|
          node_id := name;
          node_type := entity_label entity;
          node_observations := default [] (e_observations entity);
          node_group := _get_group_index (entity_label entity) existing_groups;
        |} in
        extract_nodes_loop existing_groups (nodes ++ [node]) entities
  end.

Definition extract_nodes (entities : list raw_entity)
    (existing_groups : list string) : result (list node) :=
  extract_nodes_loop existing_groups [] entities.

(** ** Link Extractor *)

(** The loop of [extract_links], with the list [links] built so far. *)
Fixpoint extract_links_loop (relation_types : gmap string nat)
    (links : list link) (relations : list raw_relation) : result (list link) :=
  match relations with
  | [] => Ok links
  | relation :: relations =>
      if decide (r_type relation ≠ Some "relation")
      then extract_links_loop relation_types links relations
      else
        src ← subscript "from" (r_from relation);
        tgt ← subscript "to" (r_to relation);
        ty ← subscript "relationType" (r_relationType relation);
        let link := {|
          link_source := src;
          link_target := tgt;
          link_type := ty;
          link_value := _get_relation_strength ty relation_types;
        |} in
        extract_links_loop relation_types (links ++ [link]) relations
  end.

Definition extract_links (relations : list raw_relation)
    (relation_types : gmap string nat) : result (list link) :=
  extract_links_loop relation_types [] relations.

(** ** Integrity Validator *)

(** The lines [validate_graph_integrity] prints. *)
Inductive line :=
  | WarnSource (id : string)  (* Warning: Link source 'id' not found in nodes *)
  | WarnTarget (id : string)  (* Warning: Link target 'id' not found in nodes *)
  | FoundMissing (n : nat) (missing : gset string)
                              (* Found n missing nodes: {...} *)
  | ConsiderAdding.           (* Consider adding these as entities or ... *)

(** The variables the loop over the links updates. *)
Record validation := {
  missing_nodes : gset string;
  printed : list line;
}.

Definition report (id : string) (warning : line) (st : validation)
  : validation :=
  {| missing_nodes := missing_nodes st ∪ {[id]};
     printed := printed st ++ [warning] |}.

(** One iteration: the source is checked, then the target. *)
Definition check_link (node_ids : gset string) (st : validation) (l : link)
  : validation :=
  let st :=
    if decide (link_source l ∉ node_ids)
    then report (link_source l) (WarnSource (link_source l)) st
    else st in
  if decide (link_target l ∉ node_ids)
  then report (link_target l) (WarnTarget (link_target l)) st
  else st.

Definition node_id_set (nodes : list node) : gset string :=
  list_to_set (node_id <$> nodes).

Definition check_links (nodes : list node) (links : list link) : validation :=
  foldl (check_link (node_id_set nodes))
        {| missing_nodes := ∅; printed := [] |} links.

(** Returns the verdict and everything printed. *)
Definition validate_graph_integrity (nodes : list node) (links : list link)
  : bool * list line :=
  let st := check_links nodes links in
  if decide (missing_nodes st ≠ ∅)
  then (false,
        printed st ++
          [FoundMissing (size (missing_nodes st)) (missing_nodes st);
           ConsiderAdding])
  else (true, printed st).

(** ** Graph Assembler

    [convert_to_d3] from the decoded [content] to the [d3_graph] handed to
    [json.dump].  [Err] is the [except] branch: the error is printed, the
    process exits with status 1 and no output document is written.
    [set(x for ...)] adds the values in the order of the iteration. *)
Definition convert_to_d3 (rt : py_runtime) (input_file : string)
    (c : content) (validate : bool) : result d3_graph :=
  match entities c, relations c with
  | None, _ => Err (ValueError "Knowledge graph must contain 'entities' array")
  | Some _, None =>
      Err (ValueError "Knowledge graph must contain 'relations' array")
  | Some entities, Some relations =>
      let groups := extract_groups rt entities in
      let relation_types := extract_relation_types relations in
      nodes ← extract_nodes entities groups;
      links ← extract_links relations relation_types;
      if validate && negb (validate_graph_integrity nodes links).1
      then Err (ValueError "Graph integrity validation failed")
      else Ok {|
        nodes := nodes;
        links := links;
        graph_metadata := {|
          nodeCount := length nodes;
          linkCount := length links;
          entityTypes := set_order rt (node_type <$> nodes);
          relationTypes := set_order rt (link_type <$> links);
          generatedAt := "2025-01-14";
          source := input_file;
        |};
      |}
  end.

(** ** Two admissible runtimes

    One enumerates every set in ascending order, the other in descending
    order. *)
Program Definition runtime_ascending : py_runtime := {|
  set_order := λ s, sorted (remove_dups s);
|}.
Next Obligation.
  intros s. unfold sorted. rewrite merge_sort_Permutation.
  apply NoDup_remove_dups.
Qed.
Next Obligation.
  intros s x. unfold sorted.
  by rewrite merge_sort_Permutation, elem_of_remove_dups.
Qed.

Program Definition runtime_descending : py_runtime := {|
  set_order := λ s, reverse (sorted (remove_dups s));
|}.
Next Obligation.
  intros s. unfold sorted. rewrite reverse_Permutation, merge_sort_Permutation.
  apply NoDup_remove_dups.
Qed.
Next Obligation.
  intros s x. unfold sorted.
  by rewrite reverse_Permutation, merge_sort_Permutation, elem_of_remove_dups.
Qed.

(** ** File-name sanitizer

    [simple_secure_filename] rewrites its argument character by character, so
    here a [str] is the list of its code points. *)

(** The code points of an ASCII literal. *)
Definition literal (s : string) : list N :=
  Ascii.N_of_ascii <$> String.list_ascii_of_string s.

(** The class [[\\/]]: backslash and slash. *)
Definition is_separator (c : N) : Prop := c = 92%N ∨ c = 47%N.

Global Instance is_separator_dec c : Decision (is_separator c).
Proof. unfold is_separator. apply _. Defined.

(** The class [[A-Za-z0-9_.-]]. *)
Definition is_safe_char (c : N) : bool :=
  ((65 <=? c) && (c <=? 90) || (97 <=? c) && (c <=? 122)
   || (48 <=? c) && (c <=? 57)
   || (c =? 95) || (c =? 46) || (c =? 45))%N.

Definition simple_secure_filename (filename : list N) : list N :=
  (* re.sub(r"[\\/]", "", filename) *)
  let filename := filter (λ c, ¬ is_separator c) filename in
  (* re.sub(r"[^A-Za-z0-9_.-]", "_", filename) *)
  let filename := (λ c, if is_safe_char c then c else 95%N) <$> filename in
  (* filename or "output.json" *)
  if decide (filename = []) then literal "output.json" else filename.

(** ** Command line *)

(** What [main] does with [sys.argv]: it prints the usage and exits with
    status 1, or it calls [convert_to_d3] with three arguments. *)
Inductive invocation :=
  | Usage
  | Convert (input_file output_file : string) (validate : bool).

Definition main (argv : list string) : invocation :=
  if decide (length argv < 2) then Usage
  else
    let input_file := argv !!! 1 in
    let output_file :=
      if bool_decide (2 < length argv) && negb (String.prefix "--" (argv !!! 2))
      then argv !!! 2
      else "d3_graph.json" in
    let validate := bool_decide ("--no-validate" ∉ argv) in
    Convert input_file output_file validate.

(** ** Vocabulary of the statements *)

(** The discriminator tests of the two extractors. *)
Definition is_entity (entity : raw_entity) : Prop :=
  e_type entity = Some "entity".
Definition is_relation (relation : raw_relation) : Prop :=
  r_type relation = Some "relation".

Global Instance is_entity_dec entity : Decision (is_entity entity).
Proof. unfold is_entity. apply _. Defined.
Global Instance is_relation_dec relation : Decision (is_relation relation).
Proof. unfold is_relation. apply _. Defined.

(** [node] is the node built from [entity]: nothing is defaulted but the type
    and the observations. *)
Definition node_from (groups : list string) (entity : raw_entity) (n : node)
  : Prop :=
  e_name entity = Some (node_id n)
  ∧ node_type n = entity_label entity
  ∧ node_observations n = default [] (e_observations entity)
  ∧ node_group n = _get_group_index (entity_label entity) groups.

(** [l] is the link built from [relation]: no field is defaulted. *)
Definition link_from (relation_types : gmap string nat)
    (relation : raw_relation) (l : link) : Prop :=
  r_from relation = Some (link_source l)
  ∧ r_to relation = Some (link_target l)
  ∧ r_relationType relation = Some (link_type l)
  ∧ link_value l = _get_relation_strength (link_type l) relation_types.

(** A relation record that lacks one of the keys [extract_links] subscripts. *)
Definition incomplete (relation : raw_relation) : Prop :=
  r_from relation = None ∨ r_to relation = None
  ∨ r_relationType relation = None.

(** The records that carry a [relationType] key. *)
Definition with_relationType (relations : list raw_relation)
  : list raw_relation :=
  filter (λ relation, is_Some (r_relationType relation)) relations.

(** Both ends of [l] are ids of nodes. *)
Definition references_ok (nodes : list node) (l : link) : Prop :=
  (∃ n, n ∈ nodes ∧ node_id n = link_source l)
  ∧ (∃ n, n ∈ nodes ∧ node_id n = link_target l).

(** The warnings due for one link, and the ids it contributes to the missing
    set, given the node ids. *)
Definition warnings_of (node_ids : gset string) (l : link) : list line :=
  (if decide (link_source l ∉ node_ids)
   then [WarnSource (link_source l)] else [])
  ++ (if decide (link_target l ∉ node_ids)
      then [WarnTarget (link_target l)] else []).

Definition missing_of (node_ids : gset string) (l : link) : gset string :=
  (if decide (link_source l ∉ node_ids) then {[link_source l]} else ∅)
  ∪ (if decide (link_target l ∉ node_ids) then {[link_target l]} else ∅).

(** Two documents that differ at most in the order of the two lists of
    labels of the metadata. *)
Definition same_up_to_label_order (g1 g2 : d3_graph) : Prop :=
  nodes g1 = nodes g2
  ∧ links g1 = links g2
  ∧ nodeCount (graph_metadata g1) = nodeCount (graph_metadata g2)
  ∧ linkCount (graph_metadata g1) = linkCount (graph_metadata g2)
  ∧ entityTypes (graph_metadata g1) ≡ₚ entityTypes (graph_metadata g2)
  ∧ relationTypes (graph_metadata g1) ≡ₚ relationTypes (graph_metadata g2)
  ∧ generatedAt (graph_metadata g1) = generatedAt (graph_metadata g2)
  ∧ source (graph_metadata g1) = source (graph_metadata g2).






(** The id a warning line is about. *)
Definition warned_id (w : line) : option string :=
  match w with
  | WarnSource id | WarnTarget id => Some id
  | _ => None
  end.

(** What the loop of the validator keeps true of its two variables: every
    warning printed is about an id of the missing set, and the set is no
    larger than the number of warnings. *)
Definition consistent (st : validation) : Prop :=
  size (missing_nodes st) ≤ length (printed st)
  ∧ ∀ w, w ∈ printed st → ∃ id, warned_id w = Some id ∧ id ∈ missing_nodes st.

(** * Properties *)

Section sets_and_sorting.
Implicit Types (rt : py_runtime) (s : py_set) (l : list string).

(** Two enumerations of sets with the same elements are permutations of
    each other, whatever the runtimes and the histories of the sets. *)
Lemma set_order_perm rt rt' s s' :
  (∀ x, x ∈ s ↔ x ∈ s') → set_order rt s ≡ₚ set_order rt' s'.
Proof.
  intros Hs. apply NoDup_Permutation; [apply set_order_NoDup..|].
  intros x. by rewrite !set_order_elem_of.
Qed.

Lemma set_order_empty rt : set_order rt [] = [].
Proof.
  destruct (set_order rt []) as [|x l] eqn:Hl; [done|].
  assert (x ∈ set_order rt []) as Hx by (rewrite Hl; left).
  apply set_order_elem_of in Hx. by apply elem_of_nil in Hx.
Qed.

Lemma sorted_perm l : sorted l ≡ₚ l.
Proof. apply merge_sort_Permutation. Qed.

Lemma sorted_Sorted l : Sorted String.le (sorted l).
Proof. apply (Sorted_merge_sort String.le). Qed.

Lemma sorted_unique l1 l2 : l1 ≡ₚ l2 → sorted l1 = sorted l2.
Proof.
  intros Hp. apply (Sorted_unique String.le); [apply sorted_Sorted..|].
  by rewrite !sorted_perm.
Qed.

Lemma collect_groups_labels (E : list raw_entity) :
  collect_groups E = entity_label <$> E.
Proof.
  unfold collect_groups.
  assert (∀ acc : py_set,
    foldl (λ groups entity, set_add groups (entity_label entity)) acc E
    = acc ++ (entity_label <$> E)) as H.
  { induction E as [|e E IH]; intros acc; simpl; [by rewrite app_nil_r|].
    rewrite IH. unfold set_add. by rewrite <-app_assoc. }
  apply H.
Qed.

Lemma elem_of_collect_groups (E : list raw_entity) t :
  t ∈ collect_groups E ↔ ∃ e, e ∈ E ∧ entity_label e = t.
Proof.
  rewrite collect_groups_labels, list_elem_of_fmap.
  split; intros (e & ? & ?); by exists e.
Qed.

(** Sorting erases both the order of the input and the order in which the
    runtime enumerates the set. *)
Lemma extract_groups_invariant rt rt' (E E' : list raw_entity) :
  E ≡ₚ E' → extract_groups rt' E' = extract_groups rt E.
Proof.
  intros Hp. unfold extract_groups. apply sorted_unique, set_order_perm.
  intros t. rewrite !elem_of_collect_groups. by setoid_rewrite Hp.
Qed.

Lemma elem_of_extract_groups rt (E : list raw_entity) t :
  t ∈ extract_groups rt E ↔ ∃ e, e ∈ E ∧ entity_label e = t.
Proof.
  unfold extract_groups.
  by rewrite sorted_perm, set_order_elem_of, elem_of_collect_groups.
Qed.
End sets_and_sorting.

(** C1. [extract_groups] returns a lexicographically sorted list without
    duplicates, made of exactly the [entityType] labels of the records (a
    missing [entityType] counting as "Unknown"); the result is the same for
    every permutation of the input, whatever order the runtime enumerates the
    intermediate set in. *)
Theorem extract_groups_sorted_nodup_perm
    (rt rt' : py_runtime) (E E' : list raw_entity) :
  E ≡ₚ E' →
  Sorted String.le (extract_groups rt E)
  ∧ NoDup (extract_groups rt E)
  ∧ (∀ t, t ∈ extract_groups rt E ↔ ∃ e, e ∈ E ∧ entity_label e = t)
  ∧ extract_groups rt' E' = extract_groups rt E.
Proof.
  intros Hp. unfold extract_groups. split_and!.
  - apply sorted_Sorted.
  - rewrite sorted_perm. apply set_order_NoDup.
  - apply elem_of_extract_groups.
  - by apply extract_groups_invariant.
Qed.

(** Two records in either order, under either runtime. *)
Lemma extract_groups_sorted_nodup_perm_witness :
  let a := {| e_type := Some "entity"; e_name := Some "A";
              e_entityType := Some "Place"; e_observations := None |} in
  let b := {| e_type := Some "entity"; e_name := Some "B";
              e_entityType := None; e_observations := None |} in
  extract_groups runtime_ascending [a; b] = ["Place"; "Unknown"]
  ∧ extract_groups runtime_descending [b; a]
    = extract_groups runtime_ascending [a; b].
Proof.
  intros a b. split; [by vm_compute|].
  apply (extract_groups_sorted_nodup_perm
           runtime_ascending runtime_descending [a; b] [b; a]).
  apply perm_swap.
Defined.

(** ** The relation tally *)

Section tally.
Implicit Types (m : gmap string nat) (R : list raw_relation).

Lemma sum_values_empty : sum_values ∅ = 0.
Proof. apply map_fold_empty. Qed.

Lemma sum_values_insert_fresh m k v :
  m !! k = None → sum_values (<[k:=v]> m) = v + sum_values m.
Proof.
  intros Hk. unfold sum_values. rewrite map_fold_insert_L; [done| |done].
  intros. lia.
Qed.

Lemma sum_values_insert m k v :
  sum_values (<[k:=v]> m) + default 0 (m !! k) = v + sum_values m.
Proof.
  destruct (m !! k) as [w|] eqn:Hk; simpl.
  - rewrite <-(insert_delete_id m k w) at 2 by done.
    rewrite <-insert_delete_eq.
    rewrite !sum_values_insert_fresh by apply lookup_delete_eq. lia.
  - rewrite sum_values_insert_fresh by done. lia.
Qed.

Lemma sum_values_count_relation m r :
  sum_values (count_relation m r) = S (sum_values m).
Proof.
  unfold count_relation.
  pose proof (sum_values_insert m (relation_label r)
                (default 0 (m !! relation_label r) + 1)). lia.
Qed.

Lemma sum_values_foldl m R :
  sum_values (foldl count_relation m R) = sum_values m + length R.
Proof.
  revert m. induction R as [|r R IH]; intros m; simpl; [lia|].
  rewrite IH, sum_values_count_relation. lia.
Qed.
End tally.

(** C2, as amended. The counts of [extract_relation_types] add up to the
    number of records in the sequence: every record is counted once, one
    without a [relationType] under the label "Unknown". *)
Theorem extract_relation_types_sum (R : list raw_relation) :
  sum_values (extract_relation_types R) = length R.
Proof.
  unfold extract_relation_types. by rewrite sum_values_foldl, sum_values_empty.
Qed.

(** C2, as stated, fails: for a single record without [relationType] the
    counts add up to 1, while no record carries the key. *)
Lemma extract_relation_types_sum_counterexample :
  let R := [{| r_type := Some "relation"; r_from := Some "A";
               r_to := Some "B"; r_relationType := None |}] in
  extract_relation_types R = {["Unknown" := 1]}
  ∧ sum_values (extract_relation_types R) = 1
  ∧ length (with_relationType R) = 0
  ∧ sum_values (extract_relation_types R) ≠ length (with_relationType R).
Proof. by vm_compute. Qed.

(** ** The two extractors *)

Section extractors.
Implicit Types (E : list raw_entity) (R : list raw_relation).
Implicit Types (G : list string) (T : gmap string nat).

(** What the node loop returns, whatever it started from. *)
Lemma extract_nodes_loop_spec G E acc :
  match extract_nodes_loop G acc E with
  | Ok ns => ∃ ns', ns = acc ++ ns' ∧ Forall2 (node_from G) (filter is_entity E) ns'
  | Err err => err = KeyError "name" ∧ ∃ e, e ∈ E ∧ is_entity e ∧ e_name e = None
  end.
Proof.
  revert acc. induction E as [|e E IH]; intros acc; simpl.
  { exists []. by rewrite app_nil_r. }
  case_decide as Hty.
  - rewrite filter_cons_False by done. specialize (IH acc).
    destruct (extract_nodes_loop G acc E); [done|].
    destruct IH as (-> & e' & ? & ? & ?). split; [done|].
    exists e'. by rewrite elem_of_cons; auto.
  - rewrite filter_cons_True by done.
    destruct (e_name e) as [name|] eqn:Hname; simpl.
    + match goal with |- context [extract_nodes_loop G (acc ++ [?n]) E] =>
        specialize (IH (acc ++ [n])); set (nd := n) in * end.
      destruct (extract_nodes_loop G _ E).
      * destruct IH as (ns' & -> & Hall). exists (nd :: ns').
        split; [by rewrite <-app_assoc|]. by constructor.
      * destruct IH as (-> & e' & ? & ? & ?). split; [done|].
        exists e'. by rewrite elem_of_cons; auto.
    + split; [done|]. exists e. split_and!; [left|done..].
Qed.

Lemma extract_links_loop_spec T R acc :
  match extract_links_loop T acc R with
  | Ok ls => ∃ ls', ls = acc ++ ls' ∧ Forall2 (link_from T) (filter is_relation R) ls'
  | Err err =>
      ∃ r, r ∈ R ∧ is_relation r ∧ incomplete r
           ∧ err ∈ [KeyError "from"; KeyError "to"; KeyError "relationType"]
  end.
Proof.
  revert acc. induction R as [|r R IH]; intros acc; simpl.
  { exists []. by rewrite app_nil_r. }
  case_decide as Hty.
  - rewrite filter_cons_False by done. specialize (IH acc).
    destruct (extract_links_loop T acc R); [done|].
    destruct IH as (r' & ? & ?). exists r'. by rewrite elem_of_cons; auto.
  - rewrite filter_cons_True by done.
    unfold incomplete.
    destruct (r_from r) as [src|] eqn:Hsrc; simpl;
      [|exists r; split_and!; [left|done|auto|set_solver]].
    destruct (r_to r) as [tgt|] eqn:Htgt; simpl;
      [|exists r; rewrite Htgt; split_and!; [left|done|auto|set_solver]].
    destruct (r_relationType r) as [ty|] eqn:Hrt; simpl;
      [|exists r; rewrite Htgt, Hrt; split_and!; [left|done|auto|set_solver]].
    match goal with |- context [extract_links_loop T (acc ++ [?l]) R] =>
      specialize (IH (acc ++ [l])); set (lk := l) in * end.
    destruct (extract_links_loop T _ R).
    + destruct IH as (ls' & -> & Hall). exists (lk :: ls').
      split; [by rewrite <-app_assoc|]. by constructor.
    + destruct IH as (r' & ? & ?). exists r'. by rewrite elem_of_cons; auto.
Qed.

Lemma extract_nodes_spec E G :
  match extract_nodes E G with
  | Ok ns => Forall2 (node_from G) (filter is_entity E) ns
  | Err err => err = KeyError "name" ∧ ∃ e, e ∈ E ∧ is_entity e ∧ e_name e = None
  end.
Proof.
  unfold extract_nodes. pose proof (extract_nodes_loop_spec G E []) as H.
  destruct (extract_nodes_loop G [] E); [|done]. by destruct H as (? & -> & ?).
Qed.

Lemma extract_links_spec R T :
  match extract_links R T with
  | Ok ls => Forall2 (link_from T) (filter is_relation R) ls
  | Err err =>
      ∃ r, r ∈ R ∧ is_relation r ∧ incomplete r
           ∧ err ∈ [KeyError "from"; KeyError "to"; KeyError "relationType"]
  end.
Proof.
  unfold extract_links. pose proof (extract_links_loop_spec T R []) as H.
  destruct (extract_links_loop T [] R); [|done]. by destruct H as (? & -> & ?).
Qed.

(** A record behind an emitted node has a name, one behind an emitted link
    has all three keys. *)
Lemma node_from_named G E ns e :
  Forall2 (node_from G) (filter is_entity E) ns →
  e ∈ E → is_entity e → is_Some (e_name e).
Proof.
  intros Hall He Hty.
  assert (e ∈ filter is_entity E) as Hin by by apply list_elem_of_filter.
  apply list_elem_of_lookup in Hin as [i Hi].
  destruct (Forall2_lookup_l _ _ _ _ _ Hall Hi) as (n & _ & Hn & _).
  by rewrite Hn.
Qed.
End extractors.

Section extractors_claims.
Implicit Types (E : list raw_entity) (R : list raw_relation).
Implicit Types (G : list string) (T : gmap string nat).

Lemma link_from_complete T R ls r :
  Forall2 (link_from T) (filter is_relation R) ls →
  r ∈ R → is_relation r → ¬ incomplete r.
Proof.
  intros Hall Hr Hty.
  assert (r ∈ filter is_relation R) as Hin by by apply list_elem_of_filter.
  apply list_elem_of_lookup in Hin as [i Hi].
  destruct (Forall2_lookup_l _ _ _ _ _ Hall Hi) as (l & _ & Hs & Ht & Hy & _).
  unfold incomplete. rewrite Hs, Ht, Hy. by intros [?|[?|?]].
Qed.
End extractors_claims.

(** C3. [extract_nodes] either raises (a record marked as an entity has no
    [name]) or returns exactly one node per record whose [type] is "entity",
    in input order, every other record being skipped: the output has as many
    nodes as the input has entity records.  Likewise [extract_links] and the
    records whose [type] is "relation". *)
Theorem extraction_lengths
    (E : list raw_entity) (G : list string)
    (R : list raw_relation) (T : gmap string nat) :
  match extract_nodes E G with
  | Ok ns =>
      Forall2 (node_from G) (filter is_entity E) ns
      ∧ length ns = length (filter is_entity E)
  | Err _ => ∃ e, e ∈ E ∧ is_entity e ∧ e_name e = None
  end
  ∧ match extract_links R T with
    | Ok ls =>
        Forall2 (link_from T) (filter is_relation R) ls
        ∧ length ls = length (filter is_relation R)
    | Err _ => ∃ r, r ∈ R ∧ is_relation r ∧ incomplete r
    end.
Proof.
  split.
  - pose proof (extract_nodes_spec E G) as H.
    destruct (extract_nodes E G); [|by destruct H].
    split; [done|]. symmetry. by eapply Forall2_length.
  - pose proof (extract_links_spec R T) as H.
    destruct (extract_links R T);
      [|destruct H as (r & ? & ? & ? & _); by exists r].
    split; [done|]. symmetry. by eapply Forall2_length.
Qed.

(** C6. [extract_nodes] raises exactly when some record marked as an entity
    lacks [name], and what it raises is the [KeyError] for that key;
    [extract_links] raises exactly when some record marked as a relation lacks
    [from], [to] or [relationType], with the [KeyError] for one of them.
    When they return, the id of every node is the [name] of its record and the
    source, target and type of every link are the [from], [to] and
    [relationType] of its record: none of them is a default. *)
Theorem extraction_fails_iff_key_missing
    (E : list raw_entity) (G : list string)
    (R : list raw_relation) (T : gmap string nat) :
  ((∃ err, extract_nodes E G = Err err)
     ↔ ∃ e, e ∈ E ∧ is_entity e ∧ e_name e = None)
  ∧ (∀ err, extract_nodes E G = Err err → err = KeyError "name")
  ∧ ((∃ err, extract_links R T = Err err)
       ↔ ∃ r, r ∈ R ∧ is_relation r ∧ incomplete r)
  ∧ (∀ err, extract_links R T = Err err →
       err ∈ [KeyError "from"; KeyError "to"; KeyError "relationType"])
  ∧ (∀ ns, extract_nodes E G = Ok ns →
       Forall2 (node_from G) (filter is_entity E) ns)
  ∧ (∀ ls, extract_links R T = Ok ls →
       Forall2 (link_from T) (filter is_relation R) ls).
Proof.
  pose proof (extract_nodes_spec E G) as Hn.
  pose proof (extract_links_spec R T) as Hl.
  split_and!.
  - split.
    + intros [err Herr]. rewrite Herr in Hn. by destruct Hn.
    + intros (e & He & Hty & Hname).
      destruct (extract_nodes E G) as [ns|err]; [|by exists err].
      destruct (node_from_named _ _ _ _ Hn He Hty) as [x Hx]. congruence.
  - intros err Herr. rewrite Herr in Hn. by destruct Hn.
  - split.
    + intros [err Herr]. rewrite Herr in Hl.
      destruct Hl as (r & ? & ? & ? & _). by exists r.
    + intros (r & Hr & Hty & Hinc).
      destruct (extract_links R T) as [ls|err]; [|by exists err].
      by destruct (link_from_complete _ _ _ _ Hl Hr Hty).
  - intros err Herr. rewrite Herr in Hl. by destruct Hl as (_ & _ & _ & _ & ?).
  - intros ns Hns. by rewrite Hns in Hn.
  - intros ls Hls. by rewrite Hls in Hl.
Qed.

(** ** The integrity validator *)

Section validator.
Implicit Types (ids : gset string) (st : validation) (l : link).

Lemma elem_of_node_id_set (ns : list node) x :
  x ∈ node_id_set ns ↔ ∃ n, n ∈ ns ∧ node_id n = x.
Proof.
  unfold node_id_set. rewrite elem_of_list_to_set, list_elem_of_fmap.
  split; intros (n & ? & ?); by exists n.
Qed.

Lemma check_link_missing ids st l :
  missing_nodes (check_link ids st l) = missing_nodes st ∪ missing_of ids l.
Proof.
  unfold check_link, missing_of, report.
  repeat case_decide; simpl; set_solver.
Qed.

Lemma check_link_printed ids st l :
  printed (check_link ids st l) = printed st ++ warnings_of ids l.
Proof.
  unfold check_link, warnings_of, report.
  repeat case_decide; simpl; by rewrite <-?app_assoc, ?app_nil_r.
Qed.

(** The loop goes through all the links, whatever it has found so far. *)
Lemma foldl_check_link ids st (ls : list link) :
  missing_nodes (foldl (check_link ids) st ls)
    = missing_nodes st ∪ ⋃ (missing_of ids <$> ls)
  ∧ printed (foldl (check_link ids) st ls)
    = printed st ++ concat (warnings_of ids <$> ls).
Proof.
  revert st. induction ls as [|l ls IH]; intros st; simpl.
  - split; [set_solver|by rewrite app_nil_r].
  - destruct (IH (check_link ids st l)) as [-> ->].
    rewrite check_link_missing, check_link_printed.
    split; [set_solver|by rewrite app_assoc].
Qed.

Lemma elem_of_missing_of ids l x :
  x ∈ missing_of ids l
  ↔ (x ∉ ids) ∧ (x = link_source l ∨ x = link_target l).
Proof. unfold missing_of. repeat case_decide; set_solver. Qed.

Lemma elem_of_check_links (ns : list node) (ls : list link) x :
  x ∈ missing_nodes (check_links ns ls)
  ↔ (x ∉ node_id_set ns)
    ∧ ∃ l, l ∈ ls ∧ (x = link_source l ∨ x = link_target l).
Proof.
  unfold check_links.
  destruct (foldl_check_link (node_id_set ns)
              {| missing_nodes := ∅; printed := [] |} ls) as [-> _]; simpl.
  rewrite elem_of_union, elem_of_union_list. split.
  - intros [?|(X & (l & -> & ?)%list_elem_of_fmap & HX)]; [set_solver|].
    apply elem_of_missing_of in HX as [? ?]. eauto.
  - intros (? & l & ? & ?). right. exists (missing_of (node_id_set ns) l).
    split; [apply list_elem_of_fmap; eauto|].
    by apply elem_of_missing_of.
Qed.

Lemma check_links_empty_iff (ns : list node) (ls : list link) :
  missing_nodes (check_links ns ls) = ∅ ↔ ∀ l, l ∈ ls → references_ok ns l.
Proof.
  unfold references_ok. setoid_rewrite <-elem_of_node_id_set. split.
  - intros Hempty l Hl.
    split; apply dec_stable; intros Hno;
      eapply (not_elem_of_empty (C:=gset string));
      rewrite <-Hempty; apply elem_of_check_links; eauto.
  - intros Hok. apply set_eq. intros x. rewrite elem_of_check_links.
    split; [|set_solver].
    intros (Hx & l & Hl & [-> | ->]); destruct (Hok l Hl); done.
Qed.
End validator.

(** C4. [validate_graph_integrity] returns [True] exactly when the source and
    the target of every link are ids of nodes.  Its loop runs over all the
    links: the missing set is the set of all ends of links that are not node
    ids, a warning is printed for each such end of each link in order, and the
    set is empty when no reference dangles. *)
Theorem validate_graph_integrity_iff (ns : list node) (ls : list link) :
  let st := check_links ns ls in
  ((validate_graph_integrity ns ls).1 = true
     ↔ ∀ l, l ∈ ls → references_ok ns l)
  ∧ ((validate_graph_integrity ns ls).1 = true ↔ missing_nodes st = ∅)
  ∧ (∀ x, x ∈ missing_nodes st
       ↔ (x ∉ node_id_set ns)
         ∧ ∃ l, l ∈ ls ∧ (x = link_source l ∨ x = link_target l))
  ∧ printed st = concat (warnings_of (node_id_set ns) <$> ls)
  ∧ (validate_graph_integrity ns ls).2
      = printed st ++
        (if (validate_graph_integrity ns ls).1 then []
         else [FoundMissing (size (missing_nodes st)) (missing_nodes st);
               ConsiderAdding]).
Proof.
  intros st.
  assert ((validate_graph_integrity ns ls).1 = true ↔ missing_nodes st = ∅)
    as Hok.
  { unfold validate_graph_integrity. fold st.
    case_decide as Hm; simpl; by split. }
  split_and!.
  - rewrite Hok. apply check_links_empty_iff.
  - done.
  - apply elem_of_check_links.
  - unfold st, check_links.
    by destruct (foldl_check_link (node_id_set ns)
                   {| missing_nodes := ∅; printed := [] |} ls) as [_ ->].
  - unfold validate_graph_integrity. fold st.
    case_decide; simpl; [done|by rewrite app_nil_r].
Qed.

(** ** The assembled pipeline *)

Section pipeline.
Implicit Types (rt : py_runtime) (c : content) (g : d3_graph).

(** The document of a run whose two extractions returned [ns] and [ls]. *)
Lemma convert_to_d3_extracted rt input_file c validate E R ns ls :
  entities c = Some E → relations c = Some R →
  extract_nodes E (extract_groups rt E) = Ok ns →
  extract_links R (extract_relation_types R) = Ok ls →
  convert_to_d3 rt input_file c validate =
    if validate && negb (validate_graph_integrity ns ls).1
    then Err (ValueError "Graph integrity validation failed")
    else Ok {|
      nodes := ns;
      links := ls;
      graph_metadata := {|
        nodeCount := length ns;
        linkCount := length ls;
        entityTypes := set_order rt (node_type <$> ns);
        relationTypes := set_order rt (link_type <$> ls);
        generatedAt := "2025-01-14";
        source := input_file;
      |};
    |}.
Proof.
  intros HE HR Hns Hls. unfold convert_to_d3.
  rewrite HE, HR. simpl. rewrite Hns. simpl. by rewrite Hls.
Qed.

Lemma validate_graph_integrity_dangling (ns : list node) (ls : list link) l :
  l ∈ ls → ¬ references_ok ns l →
  (validate_graph_integrity ns ls).1 = false.
Proof.
  intros Hl Hbad. apply not_true_is_false. intros Hok. apply Hbad.
  unfold validate_graph_integrity in Hok.
  case_decide as Hm; simpl in Hok; [done|].
  by apply (proj1 (check_links_empty_iff ns ls) Hm).
Qed.

Lemma validate_graph_integrity_nil :
  validate_graph_integrity [] [] = (true, []).
Proof. by vm_compute. Qed.
End pipeline.

(** C5. Take an input whose extraction yields the nodes [ns] and the links
    [ls], one link [l] of which has a source or a target that is the id of no
    node.  With validation enabled the run fails with the integrity error and
    writes nothing; with validation disabled it succeeds, and its document
    carries the links unchanged, [l] among them, whose source is the [from] of
    a relation record of the input. *)
Theorem dangling_link_fails_or_is_kept
    (rt : py_runtime) (input_file : string) (c : content)
    (E : list raw_entity) (R : list raw_relation)
    (ns : list node) (ls : list link) (l : link) :
  entities c = Some E → relations c = Some R →
  extract_nodes E (extract_groups rt E) = Ok ns →
  extract_links R (extract_relation_types R) = Ok ls →
  l ∈ ls → ¬ references_ok ns l →
  convert_to_d3 rt input_file c true
    = Err (ValueError "Graph integrity validation failed")
  ∧ ∃ g, convert_to_d3 rt input_file c false = Ok g
         ∧ nodes g = ns ∧ links g = ls ∧ l ∈ links g
         ∧ ∃ r, r ∈ R ∧ is_relation r
                ∧ r_from r = Some (link_source l)
                ∧ r_to r = Some (link_target l).
Proof.
  intros HE HR Hns Hls Hl Hbad.
  rewrite !(convert_to_d3_extracted rt input_file c _ E R ns ls) by done.
  rewrite (validate_graph_integrity_dangling ns ls l) by done. simpl.
  split; [done|]. eexists. split; [done|]. simpl. split_and!; [done..|].
  pose proof (extract_links_spec R (extract_relation_types R)) as Hspec.
  rewrite Hls in Hspec.
  apply list_elem_of_lookup in Hl as [i Hi].
  destruct (Forall2_lookup_r _ _ _ _ _ Hspec Hi) as (r & Hr & Hs & Ht & _).
  apply list_elem_of_lookup_2, list_elem_of_filter in Hr as [? ?].
  by exists r.
Qed.

(** Scenario C: the relation goes from "Z", and no entity is named "Z". *)
Lemma dangling_link_fails_or_is_kept_witness :
  let c := {|
    entities := Some [{| e_type := Some "entity"; e_name := Some "A";
                         e_entityType := Some "Person";
                         e_observations := None |}];
    relations := Some [{| r_type := Some "relation"; r_from := Some "Z";
                          r_to := Some "A";
                          r_relationType := Some "knows" |}] |} in
  let l := {| link_source := "Z"; link_target := "A"; link_type := "knows";
              link_value := 1 |} in
  convert_to_d3 runtime_ascending "kg.json" c true
    = Err (ValueError "Graph integrity validation failed")
  ∧ ∃ g, convert_to_d3 runtime_ascending "kg.json" c false = Ok g
         ∧ nodes g = [{| node_id := "A"; node_type := "Person";
                         node_observations := []; node_group := 0 |}]
         ∧ links g = [l] ∧ l ∈ links g
         ∧ ∃ r, r ∈ [{| r_type := Some "relation"; r_from := Some "Z";
                        r_to := Some "A";
                        r_relationType := Some "knows" |}]
                ∧ is_relation r
                ∧ r_from r = Some (link_source l)
                ∧ r_to r = Some (link_target l).
Proof.
  intros c l.
  apply (dangling_link_fails_or_is_kept runtime_ascending "kg.json" c
           _ _ _ [l] l eq_refl eq_refl).
  - vm_compute. reflexivity.
  - vm_compute. reflexivity.
  - left.
  - intros [(n & Hn & Hid) _]. apply list_elem_of_singleton in Hn.
    subst n. discriminate Hid.
Defined.

(** C7. With empty [entities] and [relations] arrays the run succeeds, with
    or without validation: no nodes, no links, both counts 0; and validation
    of the empty graph passes. *)
Theorem empty_input_gives_empty_graph
    (rt : py_runtime) (input_file : string) (validate : bool) :
  convert_to_d3 rt input_file
      {| entities := Some []; relations := Some [] |} validate
    = Ok {|
        nodes := [];
        links := [];
        graph_metadata := {|
          nodeCount := 0;
          linkCount := 0;
          entityTypes := [];
          relationTypes := [];
          generatedAt := "2025-01-14";
          source := input_file;
        |};
      |}
  ∧ (validate_graph_integrity [] []).1 = true
  ∧ missing_nodes (check_links [] []) = ∅.
Proof.
  split; [|by vm_compute].
  rewrite (convert_to_d3_extracted rt input_file _ validate [] [] [] [])
    by done.
  rewrite validate_graph_integrity_nil, andb_false_r. simpl.
  by rewrite set_order_empty.
Qed.

(** ** Two runs on the same document *)

Lemma convert_to_d3_two_runs
    (rt1 rt2 : py_runtime) (input_file : string) (c : content)
    (validate : bool) :
  match convert_to_d3 rt1 input_file c validate,
        convert_to_d3 rt2 input_file c validate with
  | Ok g1, Ok g2 => same_up_to_label_order g1 g2
  | Err e1, Err e2 => e1 = e2
  | _, _ => False
  end.
Proof.
  unfold convert_to_d3.
  destruct (entities c) as [E|], (relations c) as [R|]; try done.
  rewrite (extract_groups_invariant rt1 rt2 E E) by done.
  destruct (extract_nodes E (extract_groups rt1 E)) as [ns|]; simpl; [|done].
  destruct (extract_links R (extract_relation_types R)) as [ls|]; simpl;
    [|done].
  destruct (validate && negb (validate_graph_integrity ns ls).1); [done|].
  unfold same_up_to_label_order. simpl.
  split_and!; try done; by apply set_order_perm.
Qed.

(** C8. Two runs on one document agree on the outcome and, when they write a
    document, on everything in it (nodes, links, counts, [generatedAt],
    [source]) except the order of [entityTypes] and of [relationTypes], which
    is the order the runtime of each run enumerates a set in.  On the two
    entities of Scenario A, a run that enumerates "Person" first and a run
    that enumerates "Place" first write different documents. *)
Theorem two_runs_differ_in_label_order :
  (∀ rt1 rt2 input_file c validate,
     match convert_to_d3 rt1 input_file c validate,
           convert_to_d3 rt2 input_file c validate with
     | Ok g1, Ok g2 => same_up_to_label_order g1 g2
     | Err e1, Err e2 => e1 = e2
     | _, _ => False
     end)
  ∧ let c := {|
      entities := Some [{| e_type := Some "entity"; e_name := Some "A";
                           e_entityType := Some "Person";
                           e_observations := None |};
                        {| e_type := Some "entity"; e_name := Some "B";
                           e_entityType := Some "Place";
                           e_observations := None |}];
      relations := Some [{| r_type := Some "relation"; r_from := Some "A";
                            r_to := Some "B";
                            r_relationType := Some "visited" |}] |} in
    ∃ g1 g2,
      convert_to_d3 runtime_ascending "kg.json" c true = Ok g1
      ∧ convert_to_d3 runtime_descending "kg.json" c true = Ok g2
      ∧ entityTypes (graph_metadata g1) = ["Person"; "Place"]
      ∧ entityTypes (graph_metadata g2) = ["Place"; "Person"]
      ∧ g1 ≠ g2.
Proof.
  split; [apply convert_to_d3_two_runs|].
  intros c. eexists _, _. split_and!.
  - vm_compute. reflexivity.
  - vm_compute. reflexivity.
  - reflexivity.
  - reflexivity.
  - intros Heq. discriminate Heq.
Qed.

(** ** Records the extractors skip still feed the global tables *)

Section skipped_records.
Implicit Types (rt : py_runtime) (E : list raw_entity) (G : list string).

Lemma extract_groups_cons_fresh rt e E :
  entity_label e ∉ extract_groups rt E →
  extract_groups rt (e :: E) ≡ₚ entity_label e :: extract_groups rt E.
Proof.
  intros Hfresh. apply NoDup_Permutation.
  - unfold extract_groups. rewrite sorted_perm. apply set_order_NoDup.
  - constructor; [done|].
    unfold extract_groups. rewrite sorted_perm. apply set_order_NoDup.
  - intros t. rewrite elem_of_cons, !elem_of_extract_groups. split.
    + intros (e' & [-> | ?]%elem_of_cons & ?); [by left|]. right. by exists e'.
    + intros [-> | (e' & ? & ?)]; [exists e; split; [left|done]|].
      exists e'. split; [by right|done].
Qed.

Lemma extract_groups_cons_least rt e E :
  (∀ t, t ∈ extract_groups rt E →
        String.le (entity_label e) t ∧ entity_label e ≠ t) →
  extract_groups rt (e :: E) = entity_label e :: extract_groups rt E.
Proof.
  intros Hleast.
  assert (entity_label e ∉ extract_groups rt E) as Hfresh.
  { intros Hin. by destruct (Hleast _ Hin). }
  apply (Sorted_unique String.le).
  - apply sorted_Sorted.
  - constructor; [apply sorted_Sorted|].
    change (sorted (set_order rt (collect_groups E)))
      with (extract_groups rt E).
    destruct (extract_groups rt E) as [|g G] eqn:HG; constructor.
    apply Hleast. left.
  - by apply extract_groups_cons_fresh.
Qed.

Lemma extract_nodes_skip e E G :
  ¬ is_entity e → extract_nodes (e :: E) G = extract_nodes E G.
Proof.
  intros Hne. unfold extract_nodes. simpl. by rewrite decide_True.
Qed.

Lemma list_index_elem_of x (l : list string) :
  x ∈ l → is_Some (list_index x l).
Proof.
  induction l as [|y l IH]; [by intros ?%elem_of_nil|]. simpl.
  case_decide; [by eexists|].
  intros [?|Hin]%elem_of_cons; [done|].
  destruct (IH Hin) as [i ->]. by eexists.
Qed.

(** A label put at the head of the table moves every other label up. *)
Lemma _get_group_index_cons t x G :
  x ∈ G → t ≠ x → _get_group_index x (t :: G) = S (_get_group_index x G).
Proof.
  intros Hin Hne. unfold _get_group_index.
  rewrite !decide_True by (done || by right). simpl.
  rewrite decide_False by done.
  by destruct (list_index_elem_of x G Hin) as [i ->].
Qed.

Lemma Forall2_same_left {A B C} (R1 : A → B → Prop) (R2 : A → C → Prop)
    (l : list A) (bs : list B) (cs : list C) :
  Forall2 R1 l bs → Forall2 R2 l cs →
  Forall2 (λ b c, ∃ a, a ∈ l ∧ R1 a b ∧ R2 a c) bs cs.
Proof.
  intros H1. revert cs.
  induction H1 as [|a b l bs Hab _ IH]; intros cs H2; inv H2; constructor.
  - exists a. split; [left|done].
  - eapply Forall2_impl; [by apply IH|].
    intros b' c' (a' & ? & ? & ?). exists a'. split; [by right|done].
Qed.
End skipped_records.

(** C9. The group table holds the [entityType] (or "Unknown") of every
    record of the [entities] array, also of those whose [type] is not "entity"
    and which [extract_nodes] skips.  Such a record with a label not yet in
    the table makes the table one longer; when that label sorts before all the
    others it takes index 0 and the group of every emitted node goes up by
    one.  The example: a "note" record of type "Animal" before a "Person" and
    a "Place". *)
Theorem skipped_record_shifts_groups :
  (∀ rt E t, t ∈ extract_groups rt E ↔ ∃ e, e ∈ E ∧ entity_label e = t)
  ∧ (∀ e E G, ¬ is_entity e → extract_nodes (e :: E) G = extract_nodes E G)
  ∧ (∀ rt e E, ¬ is_entity e → entity_label e ∉ extract_groups rt E →
       length (extract_groups rt (e :: E)) = S (length (extract_groups rt E)))
  ∧ (∀ rt e E ns ns',
       ¬ is_entity e →
       (∀ t, t ∈ extract_groups rt E →
             String.le (entity_label e) t ∧ entity_label e ≠ t) →
       extract_nodes E (extract_groups rt E) = Ok ns →
       extract_nodes (e :: E) (extract_groups rt (e :: E)) = Ok ns' →
       Forall2 (λ n n', node_id n' = node_id n
                        ∧ node_group n' = S (node_group n)) ns ns')
  ∧ let a := {| e_type := Some "entity"; e_name := Some "A";
                e_entityType := Some "Person"; e_observations := None |} in
    let b := {| e_type := Some "entity"; e_name := Some "B";
                e_entityType := Some "Place"; e_observations := None |} in
    let x := {| e_type := Some "note"; e_name := None;
                e_entityType := Some "Animal"; e_observations := None |} in
    let n id ty group := {| node_id := id; node_type := ty;
                            node_observations := []; node_group := group |} in
    ∀ rt,
      extract_groups rt [a; b] = ["Person"; "Place"]
      ∧ extract_nodes [a; b] (extract_groups rt [a; b])
        = Ok [n "A" "Person" 0; n "B" "Place" 1]
      ∧ extract_groups rt [x; a; b] = ["Animal"; "Person"; "Place"]
      ∧ extract_nodes [x; a; b] (extract_groups rt [x; a; b])
        = Ok [n "A" "Person" 1; n "B" "Place" 2].
Proof.
  split_and!.
  - intros. apply elem_of_extract_groups.
  - intros. by apply extract_nodes_skip.
  - intros rt e E _ Hfresh. by rewrite extract_groups_cons_fresh.
  - intros rt e E ns ns' Hne Hleast Hns Hns'.
    rewrite extract_nodes_skip, extract_groups_cons_least in Hns' by done.
    pose proof (extract_nodes_spec E (extract_groups rt E)) as H1.
    pose proof (extract_nodes_spec E
                  (entity_label e :: extract_groups rt E)) as H2.
    rewrite Hns in H1. rewrite Hns' in H2.
    eapply Forall2_impl; [exact (Forall2_same_left _ _ _ _ _ H1 H2)|].
    intros n n' (e' & [_ He']%list_elem_of_filter
                 & (Hid & _ & _ & Hg) & (Hid' & _ & _ & Hg')).
    split; [congruence|]. rewrite Hg, Hg'.
    assert (entity_label e' ∈ extract_groups rt E) as Hin.
    { apply elem_of_extract_groups. by exists e'. }
    apply _get_group_index_cons; [done|]. by destruct (Hleast _ Hin).
  - intros a b x n rt.
    rewrite <-(extract_groups_invariant rt runtime_ascending [a; b] [a; b]),
      <-(extract_groups_invariant rt runtime_ascending [x; a; b] [x; a; b])
      by done.
    by vm_compute.
Qed.

Section skipped_relations.
Implicit Types (m : gmap string nat) (R : list raw_relation).

Lemma lookup_count_relation m r t :
  default 0 (count_relation m r !! t)
  = default 0 (m !! t) + (if decide (relation_label r = t) then 1 else 0).
Proof.
  unfold count_relation. case_decide as Ht.
  - subst t. by rewrite lookup_insert_eq.
  - rewrite lookup_insert_ne by done. lia.
Qed.

Lemma lookup_foldl_count_relation m R t :
  default 0 (foldl count_relation m R !! t)
  = default 0 (m !! t) + length (filter (λ r, relation_label r = t) R).
Proof.
  revert m. induction R as [|r R IH]; intros m; simpl; [lia|].
  rewrite IH, lookup_count_relation.
  case_decide; [rewrite filter_cons_True by done; simpl; lia|].
  rewrite filter_cons_False by done. lia.
Qed.

(** The strength of a type is the number of records of the array with that
    label, whatever their discriminator. *)
Lemma _get_relation_strength_count R t :
  _get_relation_strength t (extract_relation_types R)
  = length (filter (λ r, relation_label r = t) R).
Proof.
  unfold _get_relation_strength, extract_relation_types.
  by rewrite lookup_foldl_count_relation, lookup_empty.
Qed.

Lemma links_of_type_count (T : gmap string nat) (F : list raw_relation)
    (ls : list link) ty :
  Forall2 (link_from T) F ls →
  length (filter (λ l, link_type l = ty) ls)
  = length (filter (λ r, r_relationType r = Some ty) F).
Proof.
  induction 1 as [|r l F ls (_ & _ & Hty & _) _ IH]; [done|].
  destruct (decide (link_type l = ty)) as [Heq|Hne].
  - rewrite !filter_cons_True by congruence. simpl. by rewrite IH.
  - rewrite !filter_cons_False by congruence. done.
Qed.

Lemma relations_of_type_le R ty :
  length (filter (λ r, r_relationType r = Some ty) (filter is_relation R))
  ≤ length (filter (λ r, relation_label r = ty) R).
Proof.
  induction R as [|r R IH]; [done|].
  assert (r_relationType r = Some ty → relation_label r = ty) as Hlabel.
  { unfold relation_label. by intros ->. }
  rewrite (filter_cons is_relation),
    (filter_cons (λ r, relation_label r = ty)).
  destruct (decide (is_relation r));
    destruct (decide (relation_label r = ty)) as [?|Hne];
    rewrite ?filter_cons; try case_decide; simpl; try lia.
  destruct Hne. by apply Hlabel.
Qed.
End skipped_relations.

(** C10. The tally counts every record of the [relations] array under its
    [relationType] (or "Unknown"), whatever its [type]; [extract_links] emits
    only the records whose [type] is "relation".  So the value of an emitted
    link is the number of records of the array with its label, at least the
    number of emitted links of its type, and for some inputs more: a "knows"
    relation next to a "knows" record that is no relation gets value 2 and is
    the only link. *)
Theorem link_value_counts_skipped_records :
  (∀ R t, _get_relation_strength t (extract_relation_types R)
          = length (filter (λ r, relation_label r = t) R))
  ∧ (∀ r R T, ¬ is_relation r → extract_links (r :: R) T = extract_links R T)
  ∧ (∀ R ls l,
       extract_links R (extract_relation_types R) = Ok ls → l ∈ ls →
       link_value l = length (filter (λ r, relation_label r = link_type l) R)
       ∧ length (filter (λ l', link_type l' = link_type l) ls) ≤ link_value l)
  ∧ let R := [{| r_type := Some "relation"; r_from := Some "A";
                 r_to := Some "B"; r_relationType := Some "knows" |};
              {| r_type := Some "comment"; r_from := None;
                 r_to := None; r_relationType := Some "knows" |}] in
    let l := {| link_source := "A"; link_target := "B"; link_type := "knows";
                link_value := 2 |} in
    extract_links R (extract_relation_types R) = Ok [l]
    ∧ length (filter (λ l', link_type l' = link_type l) [l]) < link_value l.
Proof.
  split_and!.
  - apply _get_relation_strength_count.
  - intros r R T Hne. unfold extract_links. simpl. by rewrite decide_True.
  - intros R ls l Hls Hl.
    pose proof (extract_links_spec R (extract_relation_types R)) as Hspec.
    rewrite Hls in Hspec.
    assert (link_value l
            = length (filter (λ r, relation_label r = link_type l) R)) as ->.
    { apply list_elem_of_lookup in Hl as [i Hi].
      destruct (Forall2_lookup_r _ _ _ _ _ Hspec Hi) as (r & _ & Hfrom).
      destruct Hfrom as (_ & _ & _ & ->).
      apply _get_relation_strength_count. }
    split; [done|].
    rewrite (links_of_type_count _ _ _ (link_type l) Hspec).
    apply relations_of_type_le.
  - by vm_compute.
Qed.

(** ** The scenarios of the specification, evaluated *)

(** Scenario A: groups in sorted order, group indices 0 and 1, one link of
    value 1. *)
Example scenario_A :
  let E := [{| e_type := Some "entity"; e_name := Some "A";
               e_entityType := Some "Person"; e_observations := None |};
            {| e_type := Some "entity"; e_name := Some "B";
               e_entityType := Some "Place"; e_observations := None |}] in
  let R := [{| r_type := Some "relation"; r_from := Some "A";
               r_to := Some "B"; r_relationType := Some "visited" |}] in
  extract_groups runtime_descending E = ["Person"; "Place"]
  ∧ extract_nodes E (extract_groups runtime_descending E)
    = Ok [{| node_id := "A"; node_type := "Person"; node_observations := [];
             node_group := 0 |};
          {| node_id := "B"; node_type := "Place"; node_observations := [];
             node_group := 1 |}]
  ∧ extract_links R (extract_relation_types R)
    = Ok [{| link_source := "A"; link_target := "B"; link_type := "visited";
             link_value := 1 |}].
Proof. by vm_compute. Qed.

(** Scenario B: two relations of type "knows" give two links of value 2. *)
Example scenario_B :
  let R := [{| r_type := Some "relation"; r_from := Some "A";
               r_to := Some "B"; r_relationType := Some "knows" |};
            {| r_type := Some "relation"; r_from := Some "B";
               r_to := Some "A"; r_relationType := Some "knows" |}] in
  extract_relation_types R = {["knows" := 2]}
  ∧ extract_links R (extract_relation_types R)
    = Ok [{| link_source := "A"; link_target := "B"; link_type := "knows";
             link_value := 2 |};
          {| link_source := "B"; link_target := "A"; link_type := "knows";
             link_value := 2 |}].
Proof. by vm_compute. Qed.

(** Scenario D: without the [relations] key the run fails before any
    extraction, whatever the entities are. *)
Example scenario_D (rt : py_runtime) (E : list raw_entity) (validate : bool) :
  convert_to_d3 rt "kg.json" {| entities := Some E; relations := None |}
      validate
  = Err (ValueError "Knowledge graph must contain 'relations' array").
Proof. reflexivity. Qed.

(** * Further properties of the code *)

(** ** Group indices *)

Section group_index.
Implicit Types (G : list string) (t : string).

Lemma list_index_Some t G i :
  list_index t G = Some i →
  G !! i = Some t ∧ ∀ j, j < i → G !! j ≠ Some t.
Proof.
  revert i. induction G as [|g G IH]; intros i; simpl; [done|].
  case_decide as Hg.
  - intros [= <-]. subst g. split; [done|]. intros j ?. lia.
  - destruct (list_index t G) as [i'|] eqn:Hi; simpl; [|done].
    intros [= <-]. destruct (IH i' eq_refl) as [Hlook Hfirst].
    split; [done|]. intros [|j] Hj; simpl; [congruence|].
    apply Hfirst. lia.
Qed.

Lemma _get_group_index_lookup t G :
  t ∈ G → G !! _get_group_index t G = Some t.
Proof.
  intros Hin. unfold _get_group_index. rewrite decide_True by done.
  destruct (list_index_elem_of t G Hin) as [i Hi]. rewrite Hi. simpl.
  by apply list_index_Some.
Qed.

Lemma StronglySorted_lookup_lt (R : relation string) G i j x y :
  StronglySorted R G → G !! i = Some x → G !! j = Some y → i < j → R x y.
Proof.
  intros HG. revert i j.
  induction HG as [|g G _ IH Hall]; intros i j Hi Hj Hlt; [done|].
  destruct j as [|j]; [lia|]. simpl in Hj.
  destruct i as [|i]; simpl in Hi.
  - injection Hi as ->. by eapply (proj1 (Forall_lookup _ _) Hall).
  - apply (IH i j); [done..|lia].
Qed.

Lemma _get_group_index_le G t1 t2 :
  Sorted String.le G → t1 ∈ G → t2 ∈ G →
  _get_group_index t1 G ≤ _get_group_index t2 G ↔ String.le t1 t2.
Proof.
  intros HG%(Sorted_StronglySorted String.le) H1 H2.
  pose proof (_get_group_index_lookup t1 G H1) as L1.
  pose proof (_get_group_index_lookup t2 G H2) as L2.
  split.
  - intros Hle.
    destruct (decide (_get_group_index t1 G = _get_group_index t2 G))
      as [Heq|Hne].
    + rewrite Heq in L1. assert (t1 = t2) as -> by congruence. done.
    + eapply StronglySorted_lookup_lt; [done..|lia].
  - intros Hle.
    destruct (decide (_get_group_index t1 G ≤ _get_group_index t2 G))
      as [?|Hgt]; [done|].
    assert (String.le t2 t1) as Hle'
      by (eapply StronglySorted_lookup_lt; [done..|lia]).
    assert (t1 = t2) as -> by by apply (anti_symm String.le). lia.
Qed.
End group_index.

(** X1. For a type that is in the table, [_get_group_index] returns a valid
    position of the table, the table holds that type there, and it is the
    first position that does. *)
Theorem get_group_index_roundtrip (t : string) (G : list string) :
  t ∈ G →
  G !! _get_group_index t G = Some t
  ∧ _get_group_index t G < length G
  ∧ ∀ j, j < _get_group_index t G → G !! j ≠ Some t.
Proof.
  intros Hin.
  pose proof (_get_group_index_lookup t G Hin) as Hlook.
  split_and!; [done|by eapply lookup_lt_Some|].
  unfold _get_group_index. rewrite decide_True by done.
  destruct (list_index_elem_of t G Hin) as [i Hi]. rewrite Hi. simpl.
  by apply list_index_Some.
Qed.

Lemma get_group_index_roundtrip_witness :
  ["Person"; "Place"; "Thing"] !! _get_group_index "Place"
     ["Person"; "Place"; "Thing"] = Some "Place"
  ∧ _get_group_index "Place" ["Person"; "Place"; "Thing"] < 3
  ∧ ∀ j, j < _get_group_index "Place" ["Person"; "Place"; "Thing"] →
         ["Person"; "Place"; "Thing"] !! j ≠ Some "Place".
Proof.
  apply (get_group_index_roundtrip "Place" ["Person"; "Place"; "Thing"]).
  right. left.
Defined.

(** X2. [_get_group_index] returns 0 exactly when the type is the first of
    the table or is not in the table at all: a type that is absent is given
    the group of the first type. *)
Theorem get_group_index_zero_iff (t : string) (G : list string) :
  _get_group_index t G = 0 ↔ t ∉ G ∨ head G = Some t.
Proof.
  unfold _get_group_index. case_decide as Hin; [|split; [by left|done]].
  destruct G as [|g G]; [by apply elem_of_nil in Hin|]. simpl.
  case_decide as Hg.
  - subst g. split; [by right|done].
  - destruct (list_index t G) as [i|] eqn:Hi; simpl.
    + split; [done|]. intros [?|[= ?]]; done.
    + apply elem_of_cons in Hin as [?|Hin]; [done|].
      destruct (list_index_elem_of t G Hin) as [i' ?]. congruence.
Qed.

(** X3. In a run, the group of every emitted node is a position of the group
    table and the table holds the node's type there: the fallback to 0 of
    [_get_group_index] is never taken. *)
Theorem node_group_indexes_its_type
    (rt : py_runtime) (E : list raw_entity) (ns : list node) (n : node) :
  extract_nodes E (extract_groups rt E) = Ok ns → n ∈ ns →
  extract_groups rt E !! node_group n = Some (node_type n)
  ∧ node_group n < length (extract_groups rt E).
Proof.
  intros Hns Hn.
  pose proof (extract_nodes_spec E (extract_groups rt E)) as Hspec.
  rewrite Hns in Hspec.
  apply list_elem_of_lookup in Hn as [i Hi].
  destruct (Forall2_lookup_r _ _ _ _ _ Hspec Hi)
    as (e & He & _ & Hty & _ & Hg).
  apply list_elem_of_lookup_2, list_elem_of_filter in He as [_ He].
  assert (node_type n ∈ extract_groups rt E) as Hin.
  { apply elem_of_extract_groups. by exists e. }
  rewrite Hg, <-Hty.
  pose proof (_get_group_index_lookup _ _ Hin) as Hlook.
  split; [done|by eapply lookup_lt_Some].
Qed.

Lemma node_group_indexes_its_type_witness :
  let a := {| e_type := Some "entity"; e_name := Some "A";
              e_entityType := Some "Place"; e_observations := None |} in
  let b := {| e_type := Some "entity"; e_name := Some "B";
              e_entityType := None; e_observations := None |} in
  let n := {| node_id := "B"; node_type := "Unknown";
              node_observations := []; node_group := 1 |} in
  extract_groups runtime_descending [a; b] !! node_group n
    = Some (node_type n)
  ∧ node_group n < length (extract_groups runtime_descending [a; b]).
Proof.
  intros a b n.
  apply (node_group_indexes_its_type runtime_descending [a; b]
           [{| node_id := "A"; node_type := "Place";
               node_observations := []; node_group := 0 |}; n] n).
  - vm_compute. reflexivity.
  - right. left.
Defined.

(** X4. In a run, the groups order the emitted nodes as their types are
    ordered: one node has a group no greater than another exactly when its
    type is lexicographically no greater. *)
Theorem node_groups_follow_type_order
    (rt : py_runtime) (E : list raw_entity) (ns : list node) (n1 n2 : node) :
  extract_nodes E (extract_groups rt E) = Ok ns → n1 ∈ ns → n2 ∈ ns →
  node_group n1 ≤ node_group n2 ↔ String.le (node_type n1) (node_type n2).
Proof.
  intros Hns H1 H2.
  pose proof (extract_nodes_spec E (extract_groups rt E)) as Hspec.
  rewrite Hns in Hspec.
  assert (∀ n, n ∈ ns →
            node_type n ∈ extract_groups rt E
            ∧ node_group n = _get_group_index (node_type n)
                               (extract_groups rt E)) as Hnode.
  { intros n [i Hi]%list_elem_of_lookup.
    destruct (Forall2_lookup_r _ _ _ _ _ Hspec Hi)
      as (e & He & _ & Hty & _ & Hg).
    apply list_elem_of_lookup_2, list_elem_of_filter in He as [_ He].
    split; [|by rewrite Hty].
    apply elem_of_extract_groups. by exists e. }
  destruct (Hnode n1 H1) as [Hin1 ->], (Hnode n2 H2) as [Hin2 ->].
  apply _get_group_index_le; [|done..].
  unfold extract_groups. apply sorted_Sorted.
Qed.

Lemma node_groups_follow_type_order_witness :
  let a := {| e_type := Some "entity"; e_name := Some "A";
              e_entityType := Some "Place"; e_observations := None |} in
  let b := {| e_type := Some "entity"; e_name := Some "B";
              e_entityType := Some "Person"; e_observations := None |} in
  let na := {| node_id := "A"; node_type := "Place";
               node_observations := []; node_group := 1 |} in
  let nb := {| node_id := "B"; node_type := "Person";
               node_observations := []; node_group := 0 |} in
  node_group nb ≤ node_group na ↔ String.le (node_type nb) (node_type na).
Proof.
  intros a b na nb.
  apply (node_groups_follow_type_order runtime_ascending [a; b] [na; nb]).
  - vm_compute. reflexivity.
  - right. left.
  - left.
Defined.

(** ** The tally as a table *)

Section tally_table.
Implicit Types (m : gmap string nat) (R : list raw_relation).

(** No count of zero is ever stored. *)
Lemma foldl_count_relation_nonzero m R t :
  m !! t ≠ Some 0 → foldl count_relation m R !! t ≠ Some 0.
Proof.
  revert m. induction R as [|r R IH]; intros m Hm; simpl; [done|].
  apply IH. unfold count_relation.
  destruct (decide (relation_label r = t)) as [<-|Hne].
  - rewrite lookup_insert_eq. intros [= ?]. lia.
  - by rewrite lookup_insert_ne.
Qed.

Lemma lookup_extract_relation_types R t n :
  extract_relation_types R !! t = Some n
  ↔ n = length (filter (λ r, relation_label r = t) R) ∧ 1 ≤ n.
Proof.
  pose proof (_get_relation_strength_count R t) as Hcount.
  assert (extract_relation_types R !! t ≠ Some 0) as Hnz.
  { apply foldl_count_relation_nonzero. by rewrite lookup_empty. }
  unfold _get_relation_strength in Hcount.
  destruct (extract_relation_types R !! t) as [k|]; simpl in Hcount.
  - split.
    + intros [= <-]. split; [done|]. destruct k; [done|lia].
    + intros [-> _]. by rewrite Hcount.
  - split; [done|]. intros [-> ?]. lia.
Qed.

Lemma filter_length_perm {A} (P : A → Prop) `{!∀ x, Decision (P x)}
    (l k : list A) :
  l ≡ₚ k → length (filter P l) = length (filter P k).
Proof. intros Hp. by rewrite Hp. Qed.
End tally_table.

(** X5. The tally does not depend on the order of the relation records. *)
Theorem extract_relation_types_perm (R R' : list raw_relation) :
  R ≡ₚ R' → extract_relation_types R = extract_relation_types R'.
Proof.
  intros Hp. apply map_eq. intros t. apply option_eq. intros n.
  rewrite !lookup_extract_relation_types.
  by rewrite (filter_length_perm _ R R' Hp).
Qed.

Lemma extract_relation_types_perm_witness :
  let r1 := {| r_type := Some "relation"; r_from := Some "A";
               r_to := Some "B"; r_relationType := Some "knows" |} in
  let r2 := {| r_type := Some "relation"; r_from := Some "B";
               r_to := Some "C"; r_relationType := None |} in
  extract_relation_types [r1; r2; r1] = extract_relation_types [r2; r1; r1].
Proof.
  intros r1 r2.
  apply (extract_relation_types_perm [r1; r2; r1] [r2; r1; r1]).
  apply perm_swap.
Defined.

(** X6. The tally has an entry for a label exactly when some record of the
    array carries that label ("Unknown" for a record without [relationType]),
    and the entry is the number of such records: a count is never 0. *)
Theorem extract_relation_types_lookup (R : list raw_relation) (t : string) :
  (∀ n, extract_relation_types R !! t = Some n
        ↔ n = length (filter (λ r, relation_label r = t) R) ∧ 1 ≤ n)
  ∧ (extract_relation_types R !! t = None
     ↔ ∀ r, r ∈ R → relation_label r ≠ t).
Proof.
  split; [apply lookup_extract_relation_types|].
  rewrite eq_None_not_Some. split.
  - intros Hnone r Hr Hlabel. apply Hnone.
    exists (length (filter (λ r, relation_label r = t) R)).
    apply lookup_extract_relation_types. split; [done|].
    assert (r ∈ filter (λ r, relation_label r = t) R) as Hin
      by by apply list_elem_of_filter.
    destruct (filter (λ r, relation_label r = t) R);
      [by apply elem_of_nil in Hin|simpl; lia].
  - intros Hno [n [-> Hn]%lookup_extract_relation_types].
    destruct (filter (λ r, relation_label r = t) R) as [|r F] eqn:HF;
      [simpl in Hn; lia|].
    assert (r ∈ filter (λ r, relation_label r = t) R) as Hin
      by (rewrite HF; left).
    apply list_elem_of_filter in Hin as [? ?]. by eapply Hno.
Qed.

(** X7. In a run, the value of every emitted link is at least 1, and two
    emitted links of the same type have the same value. *)
Theorem link_values_positive_and_shared
    (R : list raw_relation) (ls : list link) (l l' : link) :
  extract_links R (extract_relation_types R) = Ok ls → l ∈ ls → l' ∈ ls →
  1 ≤ link_value l
  ∧ (link_type l' = link_type l → link_value l' = link_value l).
Proof.
  intros Hls Hl Hl'.
  pose proof (extract_links_spec R (extract_relation_types R)) as Hspec.
  rewrite Hls in Hspec.
  apply list_elem_of_lookup in Hl as [i Hi], Hl' as [i' Hi'].
  destruct (Forall2_lookup_r _ _ _ _ _ Hspec Hi)
    as (r & Hr & _ & _ & Hty & ->).
  destruct (Forall2_lookup_r _ _ _ _ _ Hspec Hi')
    as (r' & _ & _ & _ & _ & ->).
  split; [|by intros ->].
  rewrite _get_relation_strength_count.
  apply list_elem_of_lookup_2, list_elem_of_filter in Hr as [_ Hr].
  assert (r ∈ filter (λ r, relation_label r = link_type l) R) as Hin.
  { apply list_elem_of_filter. split; [|done].
    unfold relation_label. by rewrite Hty. }
  destruct (filter (λ r, relation_label r = link_type l) R);
    [by apply elem_of_nil in Hin|simpl; lia].
Qed.

Lemma link_values_positive_and_shared_witness :
  let r1 := {| r_type := Some "relation"; r_from := Some "A";
               r_to := Some "B"; r_relationType := Some "knows" |} in
  let r2 := {| r_type := Some "relation"; r_from := Some "B";
               r_to := Some "A"; r_relationType := Some "knows" |} in
  let l1 := {| link_source := "A"; link_target := "B"; link_type := "knows";
               link_value := 2 |} in
  let l2 := {| link_source := "B"; link_target := "A"; link_type := "knows";
               link_value := 2 |} in
  1 ≤ link_value l1
  ∧ (link_type l2 = link_type l1 → link_value l2 = link_value l1).
Proof.
  intros r1 r2 l1 l2.
  apply (link_values_positive_and_shared [r1; r2] [l1; l2] l1 l2).
  - vm_compute. reflexivity.
  - left.
  - right. left.
Defined.

(** ** Extraction of a concatenated input *)

Section extract_app.
Implicit Types (E : list raw_entity) (R : list raw_relation).
Implicit Types (G : list string) (T : gmap string nat).

Lemma extract_nodes_loop_acc G acc E :
  extract_nodes_loop G acc E
  = ns ← extract_nodes_loop G [] E; Ok (acc ++ ns).
Proof.
  revert acc. induction E as [|e E IH]; intros acc; simpl.
  { by rewrite app_nil_r. }
  case_decide; [apply IH|].
  destruct (e_name e) as [name|]; simpl; [|done].
  rewrite (IH (acc ++ _)), (IH [_]).
  destruct (extract_nodes_loop G [] E); simpl; [|done].
  by rewrite <-app_assoc.
Qed.

Lemma extract_nodes_loop_app G acc E1 E2 :
  extract_nodes_loop G acc (E1 ++ E2)
  = ns ← extract_nodes_loop G acc E1; extract_nodes_loop G ns E2.
Proof.
  revert acc. induction E1 as [|e E1 IH]; intros acc; simpl; [done|].
  case_decide; [apply IH|].
  destruct (e_name e) as [name|]; simpl; [apply IH|done].
Qed.

Lemma extract_links_loop_acc T acc R :
  extract_links_loop T acc R
  = ls ← extract_links_loop T [] R; Ok (acc ++ ls).
Proof.
  revert acc. induction R as [|r R IH]; intros acc; simpl.
  { by rewrite app_nil_r. }
  case_decide; [apply IH|].
  destruct (r_from r) as [src|]; simpl; [|done].
  destruct (r_to r) as [tgt|]; simpl; [|done].
  destruct (r_relationType r) as [ty|]; simpl; [|done].
  rewrite (IH (acc ++ _)), (IH [_]).
  destruct (extract_links_loop T [] R); simpl; [|done].
  by rewrite <-app_assoc.
Qed.

Lemma extract_links_loop_app T acc R1 R2 :
  extract_links_loop T acc (R1 ++ R2)
  = ls ← extract_links_loop T acc R1; extract_links_loop T ls R2.
Proof.
  revert acc. induction R1 as [|r R1 IH]; intros acc; simpl; [done|].
  case_decide; [apply IH|].
  destruct (r_from r) as [src|]; simpl; [|done].
  destruct (r_to r) as [tgt|]; simpl; [|done].
  destruct (r_relationType r) as [ty|]; simpl; [apply IH|done].
Qed.
End extract_app.

(** X8. Against one group table and one tally, extracting from a
    concatenation is extracting from each part and concatenating the results;
    when a part raises, the first exception in input order is the one
    raised. *)
Theorem extract_app
    (E1 E2 : list raw_entity) (G : list string)
    (R1 R2 : list raw_relation) (T : gmap string nat) :
  extract_nodes (E1 ++ E2) G
    = (ns1 ← extract_nodes E1 G; ns2 ← extract_nodes E2 G; Ok (ns1 ++ ns2))
  ∧ extract_links (R1 ++ R2) T
    = (ls1 ← extract_links R1 T; ls2 ← extract_links R2 T; Ok (ls1 ++ ls2)).
Proof.
  unfold extract_nodes, extract_links. split.
  - rewrite extract_nodes_loop_app.
    destruct (extract_nodes_loop G [] E1) as [ns1|]; simpl; [|done].
    apply extract_nodes_loop_acc.
  - rewrite extract_links_loop_app.
    destruct (extract_links_loop T [] R1) as [ls1|]; simpl; [|done].
    apply extract_links_loop_acc.
Qed.

(** ** More on the validator *)

Section validator_more.
Implicit Types (ids : gset string) (st : validation) (l : link).

Lemma validate_graph_integrity_true (ns : list node) (ls : list link) :
  (validate_graph_integrity ns ls).1 = true ↔ ∀ l, l ∈ ls → references_ok ns l.
Proof.
  rewrite <-check_links_empty_iff. unfold validate_graph_integrity.
  case_decide; simpl; by split.
Qed.

Lemma report_consistent id w st :
  warned_id w = Some id → consistent st → consistent (report id w st).
Proof.
  intros Hw [Hsize Hids]. unfold report. split; simpl.
  - rewrite length_app, size_union_alt. simpl.
    pose proof (subseteq_size ({[id]} ∖ missing_nodes st) {[id]}) as Hle.
    rewrite size_singleton in Hle. specialize (Hle ltac:(set_solver)). lia.
  - intros w' [Hin|Hin]%elem_of_app.
    + destruct (Hids w' Hin) as (id' & ? & ?). exists id'. set_solver.
    + apply list_elem_of_singleton in Hin as ->. exists id. set_solver.
Qed.

Lemma check_link_consistent ids st l :
  consistent st → consistent (check_link ids st l).
Proof.
  intros Hst. unfold check_link.
  repeat case_decide; repeat apply report_consistent; done.
Qed.

Lemma check_links_consistent (ns : list node) (ls : list link) :
  consistent (check_links ns ls).
Proof.
  unfold check_links.
  assert (∀ st, consistent st →
            consistent (foldl (check_link (node_id_set ns)) st ls)) as H.
  { induction ls as [|l ls IH]; intros st Hst; simpl; [done|].
    by apply IH, check_link_consistent. }
  apply H. split; simpl; [by vm_compute|].
  by intros w ?%elem_of_nil.
Qed.

Lemma warnings_of_length ids l : length (warnings_of ids l) ≤ 2.
Proof. unfold warnings_of. repeat case_decide; simpl; lia. Qed.

Lemma check_links_printed_length (ns : list node) (ls : list link) :
  length (printed (check_links ns ls)) ≤ 2 * length ls.
Proof.
  unfold check_links.
  destruct (foldl_check_link (node_id_set ns)
              {| missing_nodes := ∅; printed := [] |} ls) as [_ ->]; simpl.
  induction ls as [|l ls IH]; csimpl; [lia|].
  rewrite length_app.
  pose proof (warnings_of_length (node_id_set ns) l). lia.
Qed.
End validator_more.

(** X9. Validating a concatenation of link lists against the same nodes
    succeeds exactly when validating each part does. *)
Theorem validate_graph_integrity_app (ns : list node) (ls1 ls2 : list link) :
  (validate_graph_integrity ns (ls1 ++ ls2)).1
  = (validate_graph_integrity ns ls1).1 && (validate_graph_integrity ns ls2).1.
Proof.
  apply eq_true_iff_eq.
  rewrite andb_true_iff, !validate_graph_integrity_true. split.
  - intros H. split; intros l Hl; apply H, elem_of_app; auto.
  - intros [H1 H2] l [?|?]%elem_of_app; auto.
Qed.

(** X10. A list of links that validates against some nodes still validates
    when nodes are added and when links are removed. *)
Theorem validate_graph_integrity_mono
    (ns ns' : list node) (ls ls' : list link) :
  (validate_graph_integrity ns ls).1 = true →
  ns ⊆ ns' → ls' ⊆ ls →
  (validate_graph_integrity ns' ls').1 = true.
Proof.
  rewrite !validate_graph_integrity_true. intros Hok Hns Hls l Hl.
  destruct (Hok l (Hls l Hl)) as [(n1 & ? & ?) (n2 & ? & ?)].
  split; [exists n1|exists n2]; split; auto.
Qed.

Lemma validate_graph_integrity_mono_witness :
  let a := {| node_id := "A"; node_type := "Person";
              node_observations := []; node_group := 0 |} in
  let b := {| node_id := "B"; node_type := "Place";
              node_observations := []; node_group := 1 |} in
  let l := {| link_source := "A"; link_target := "A"; link_type := "knows";
              link_value := 1 |} in
  (validate_graph_integrity [b; a] [l]).1 = true.
Proof.
  intros a b l.
  apply (validate_graph_integrity_mono [a] [b; a] [l; l] [l]).
  - vm_compute. reflexivity.
  - intros n Hn. by right.
  - intros l' Hl'. by right.
Defined.

(** X11. A validation that succeeds prints nothing.  One that fails prints
    its warnings, each about an id of the missing set, then the summary with
    the size of that set, then the advice; the size is at least 1 and at most
    the number of warnings, which is at most twice the number of links. *)
Theorem validate_graph_integrity_output (ns : list node) (ls : list link) :
  let missing := missing_nodes (check_links ns ls) in
  let warnings := printed (check_links ns ls) in
  if (validate_graph_integrity ns ls).1
  then (validate_graph_integrity ns ls).2 = []
  else (validate_graph_integrity ns ls).2
         = warnings ++ [FoundMissing (size missing) missing; ConsiderAdding]
       ∧ (∀ w, w ∈ warnings → ∃ id, warned_id w = Some id ∧ id ∈ missing)
       ∧ 1 ≤ size missing ≤ length warnings
       ∧ length warnings ≤ 2 * length ls.
Proof.
  intros missing warnings.
  destruct (check_links_consistent ns ls) as [Hsize Hids].
  fold missing warnings in Hsize, Hids.
  unfold validate_graph_integrity. fold missing warnings.
  case_decide as Hm; simpl.
  - split_and!; [done|done| |done|apply check_links_printed_length].
    assert (size missing ≠ 0) as Hpos; [|lia].
    intros Hz%(size_empty_iff (C:=gset string)).
    by apply Hm, leibniz_equiv.
  - destruct warnings as [|w ws]; [done|].
    destruct (Hids w) as (id & _ & Hid); [left|].
    rewrite Hm in Hid. by apply not_elem_of_empty in Hid.
Qed.

(** ** More on the assembled pipeline *)

Section pipeline_more.
Implicit Types (rt : py_runtime) (c : content) (g : d3_graph).
Implicit Types (E : list raw_entity) (R : list raw_relation).

(** What a run that wrote a document went through. *)
Lemma convert_to_d3_Ok rt input_file c validate g :
  convert_to_d3 rt input_file c validate = Ok g →
  ∃ E R ns ls,
    entities c = Some E ∧ relations c = Some R
    ∧ extract_nodes E (extract_groups rt E) = Ok ns
    ∧ extract_links R (extract_relation_types R) = Ok ls
    ∧ (validate = true → (validate_graph_integrity ns ls).1 = true)
    ∧ g = {|
        nodes := ns;
        links := ls;
        graph_metadata := {|
          nodeCount := length ns;
          linkCount := length ls;
          entityTypes := set_order rt (node_type <$> ns);
          relationTypes := set_order rt (link_type <$> ls);
          generatedAt := "2025-01-14";
          source := input_file;
        |};
      |}.
Proof.
  unfold convert_to_d3.
  destruct (entities c) as [E|]; [|done].
  destruct (relations c) as [R|]; [|done].
  destruct (extract_nodes E (extract_groups rt E)) as [ns|] eqn:Hns;
    simpl; [|done].
  destruct (extract_links R (extract_relation_types R)) as [ls|] eqn:Hls;
    simpl; [|done].
  destruct (validate && negb (validate_graph_integrity ns ls).1) eqn:Hv;
    [done|].
  intros [= <-]. exists E, R, ns, ls. split_and!; try done.
  intros ->. simpl in Hv. by apply negb_false_iff in Hv.
Qed.




End pipeline_more.




(** X14. A document written with validation enabled has no dangling link:
    the source and the target of each of its links are ids of its nodes.  It
    is the document the same run writes with validation disabled. *)
Theorem validated_document_is_closed
    (rt : py_runtime) (input_file : string) (c : content) (g : d3_graph) :
  convert_to_d3 rt input_file c true = Ok g →
  (∀ l, l ∈ links g → references_ok (nodes g) l)
  ∧ convert_to_d3 rt input_file c false = Ok g.
Proof.
  intros (E & R & ns & ls & HE & HR & Hns & Hls & Hv & ->)%convert_to_d3_Ok.
  simpl. split.
  - by apply validate_graph_integrity_true, Hv.
  - by rewrite (convert_to_d3_extracted rt input_file c false E R ns ls).
Qed.

Lemma validated_document_is_closed_witness :
  let c := {|
    entities := Some [{| e_type := Some "entity"; e_name := Some "A";
                         e_entityType := Some "Person";
                         e_observations := None |}];
    relations := Some [{| r_type := Some "relation"; r_from := Some "A";
                          r_to := Some "A";
                          r_relationType := Some "knows" |}] |} in
  ∃ g, convert_to_d3 runtime_ascending "kg.json" c true = Ok g
       ∧ (∀ l, l ∈ links g → references_ok (nodes g) l)
       ∧ convert_to_d3 runtime_ascending "kg.json" c false = Ok g.
Proof.
  intros c. eexists. split; [vm_compute; reflexivity|].
  apply (validated_document_is_closed runtime_ascending "kg.json" c).
  vm_compute. reflexivity.
Defined.



(** ** The file-name sanitizer *)

Section sanitizer.
Implicit Types (c : N) (fn : list N).

Lemma safe_not_separator c : is_safe_char c = true → ¬ is_separator c.
Proof. intros Hsafe [-> | ->]; by vm_compute in Hsafe. Qed.

Lemma replace_unsafe_safe fn :
  Forall (λ c, is_safe_char c = true)
         ((λ c, if is_safe_char c then c else 95%N) <$> fn).
Proof.
  apply Forall_fmap, Forall_true. intros c. simpl.
  by destruct (is_safe_char c) eqn:Hc.
Qed.

Lemma replace_unsafe_id fn :
  Forall (λ c, is_safe_char c = true) fn →
  (λ c, if is_safe_char c then c else 95%N) <$> fn = fn.
Proof.
  induction 1 as [|c fn Hc _ IH]; csimpl; [done|]. by rewrite Hc, IH.
Qed.

Lemma strip_separators_id fn :
  Forall (λ c, is_safe_char c = true) fn →
  filter (λ c, ¬ is_separator c) fn = fn.
Proof.
  induction 1 as [|c fn Hc _ IH]; [done|].
  rewrite filter_cons_True by by apply safe_not_separator. by rewrite IH.
Qed.

Lemma literal_output_json_safe :
  Forall (λ c, is_safe_char c = true) (literal "output.json").
Proof. repeat constructor. Qed.

Lemma simple_secure_filename_safe fn :
  simple_secure_filename fn ≠ []
  ∧ Forall (λ c, is_safe_char c = true) (simple_secure_filename fn).
Proof.
  unfold simple_secure_filename. case_decide as Hempty.
  - split; [done|apply literal_output_json_safe].
  - split; [done|apply replace_unsafe_safe].
Qed.

Lemma simple_secure_filename_fixed fn :
  fn ≠ [] → Forall (λ c, is_safe_char c = true) fn →
  simple_secure_filename fn = fn.
Proof.
  intros Hne Hsafe. unfold simple_secure_filename.
  rewrite strip_separators_id, replace_unsafe_id by done.
  by rewrite decide_False.
Qed.
End sanitizer.

(** X16. The name [simple_secure_filename] returns is never empty, is made
    of letters, digits, [_], [.] and [-] only, and so contains neither a
    slash nor a backslash. *)
Theorem simple_secure_filename_is_safe (filename : list N) :
  simple_secure_filename filename ≠ []
  ∧ Forall (λ c, is_safe_char c = true) (simple_secure_filename filename)
  ∧ Forall (λ c, ¬ is_separator c) (simple_secure_filename filename).
Proof.
  destruct (simple_secure_filename_safe filename) as [Hne Hsafe].
  split_and!; [done..|].
  eapply Forall_impl; [exact Hsafe|]. apply safe_not_separator.
Qed.

(** X17. Sanitizing a sanitized name changes nothing. *)
Theorem simple_secure_filename_idempotent (filename : list N) :
  simple_secure_filename (simple_secure_filename filename)
  = simple_secure_filename filename.
Proof.
  destruct (simple_secure_filename_safe filename) as [Hne Hsafe].
  by apply simple_secure_filename_fixed.
Qed.

(** X18. The names [simple_secure_filename] leaves unchanged are exactly the
    non-empty names made of letters, digits, [_], [.] and [-]; among them
    are the names made of dots only, such as [..]. *)
Theorem simple_secure_filename_fixed_iff (filename : list N) :
  (simple_secure_filename filename = filename
   ↔ filename ≠ [] ∧ Forall (λ c, is_safe_char c = true) filename)
  ∧ ∀ k, simple_secure_filename (replicate (S k) 46%N)
         = replicate (S k) 46%N.
Proof.
  split; [split|].
  - intros <-. apply simple_secure_filename_safe.
  - intros [? ?]. by apply simple_secure_filename_fixed.
  - intros k. apply simple_secure_filename_fixed; [done|].
    by apply Forall_replicate.
Qed.

(** X19. When every character of the name is a slash or a backslash (the
    empty name included) the result is "output.json"; otherwise the result
    has one character for each character of the name that is neither, so it
    is no longer than the name. *)
Theorem simple_secure_filename_length (filename : list N) :
  (Forall is_separator filename
   → simple_secure_filename filename = literal "output.json")
  ∧ (¬ Forall is_separator filename
     → length (simple_secure_filename filename)
       = length (filter (λ c, ¬ is_separator c) filename)
       ∧ length (simple_secure_filename filename) ≤ length filename).
Proof.
  unfold simple_secure_filename. split.
  - intros Hall.
    assert (filter (λ c, ¬ is_separator c) filename = []) as ->; [|done].
    induction Hall as [|c fn Hc _ IH]; [done|].
    by rewrite filter_cons_False by by intros [].
  - intros Hnot.
    assert (filter (λ c, ¬ is_separator c) filename ≠ []) as Hne.
    { intros Hnil. apply Hnot, Forall_forall. intros c Hc.
      apply dec_stable. intros Hsep.
      assert (c ∈ filter (λ c, ¬ is_separator c) filename) as Hin
        by by apply list_elem_of_filter.
      rewrite Hnil in Hin. by apply elem_of_nil in Hin. }
    rewrite decide_False, length_fmap.
    + split; [done|apply length_filter].
    + by intros ?%fmap_nil_inv.
Qed.

(** ** The command line *)

Section command_line.
Implicit Types (argv : list string).

Lemma main_Convert argv input_file output_file validate :
  main argv = Convert input_file output_file validate →
  2 ≤ length argv
  ∧ input_file = argv !!! 1
  ∧ output_file
    = (if bool_decide (2 < length argv)
          && negb (String.prefix "--" (argv !!! 2))
       then argv !!! 2 else "d3_graph.json")
  ∧ validate = bool_decide ("--no-validate" ∉ argv).
Proof.
  unfold main. case_decide; [done|]. intros [= <- <- <-].
  split_and!; [lia|done..].
Qed.
End command_line.

(** X20. [main] prints the usage exactly when fewer than two words are on
    the command line.  Otherwise it converts the file named by the second
    word; validation is off exactly when [--no-validate] occurs anywhere on
    the line, be it as the input name; the output name is the third word
    when there is one that does not start with [--], and "d3_graph.json"
    otherwise, so it never starts with [--] and a name given after the flag
    is not used. *)
Theorem main_invocation (argv : list string) :
  (main argv = Usage ↔ length argv < 2)
  ∧ ∀ input_file output_file validate,
      main argv = Convert input_file output_file validate →
      argv !! 1 = Some input_file
      ∧ (validate = false ↔ "--no-validate" ∈ argv)
      ∧ String.prefix "--" output_file = false
      ∧ match argv !! 2 with
        | Some word =>
            output_file
            = if String.prefix "--" word then "d3_graph.json" else word
        | None => output_file = "d3_graph.json"
        end.
Proof.
  split.
  { unfold main. case_decide; by split. }
  intros input_file output_file validate
    (Hlen & -> & -> & ->)%main_Convert.
  assert (String.prefix "--" "d3_graph.json" = false) as Hdefault
    by by vm_compute.
  split_and!.
  - apply list_lookup_lookup_total_lt. lia.
  - rewrite bool_decide_eq_false. split; [apply dec_stable|by auto].
  - case_bool_decide; simpl; [|done].
    by destruct (String.prefix "--" (argv !!! 2)) eqn:Hp.
  - destruct (argv !! 2) as [word|] eqn:Hword.
    + rewrite (list_lookup_total_correct _ _ _ Hword).
      apply lookup_lt_Some in Hword.
      rewrite bool_decide_eq_true_2 by done. simpl.
      by destruct (String.prefix "--" word).
    + apply lookup_ge_None in Hword.
      by rewrite bool_decide_eq_false_2 by lia.
Qed.

(** ** The group table and the document *)

(** X21. The group table depends only on which labels occur among the
    records, not on how often, where, or under which runtime; it has at most
    as many entries as there are records. *)
Theorem extract_groups_same_labels
    (rt rt' : py_runtime) (E E' : list raw_entity) :
  (∀ t, (∃ e, e ∈ E ∧ entity_label e = t)
        ↔ (∃ e, e ∈ E' ∧ entity_label e = t)) →
  extract_groups rt E = extract_groups rt' E'
  ∧ length (extract_groups rt E) ≤ length E.
Proof.
  intros Hlabels. split.
  - unfold extract_groups. apply sorted_unique, set_order_perm.
    intros t. by rewrite !elem_of_collect_groups.
  - rewrite <-(length_fmap entity_label E).
    apply submseteq_length, NoDup_submseteq.
    + unfold extract_groups. rewrite sorted_perm. apply set_order_NoDup.
    + intros t (e & ? & <-)%elem_of_extract_groups.
      by apply list_elem_of_fmap_2.
Qed.

Lemma extract_groups_same_labels_witness :
  let a := {| e_type := Some "entity"; e_name := Some "A";
              e_entityType := Some "Place"; e_observations := None |} in
  let b := {| e_type := Some "note"; e_name := None;
              e_entityType := Some "Person"; e_observations := None |} in
  extract_groups runtime_ascending [a; a; b]
    = extract_groups runtime_descending [b; a]
  ∧ length (extract_groups runtime_ascending [a; a; b]) ≤ 3.
Proof.
  intros a b.
  apply (extract_groups_same_labels runtime_ascending runtime_descending
           [a; a; b] [b; a]).
  intros t. split; intros (e & He & Ht); exists e; split; try done;
    set_solver.
Defined.

(** X22. In a document that is written, [nodeCount] is the number of records
    of the input marked as entities and [linkCount] the number marked as
    relations; every type listed in [entityTypes] is in the group table, and
    when every record of [entities] is marked as an entity the two hold the
    same types. *)
Theorem document_counts_and_types
    (rt : py_runtime) (input_file : string) (c : content) (validate : bool)
    (E : list raw_entity) (R : list raw_relation) (g : d3_graph) :
  entities c = Some E → relations c = Some R →
  convert_to_d3 rt input_file c validate = Ok g →
  let m := graph_metadata g in
  nodeCount m = length (filter is_entity E)
  ∧ linkCount m = length (filter is_relation R)
  ∧ (∀ t, t ∈ entityTypes m → t ∈ extract_groups rt E)
  ∧ (Forall is_entity E → entityTypes m ≡ₚ extract_groups rt E).
Proof.
  intros HE HR
    (E' & R' & ns & ls & HE' & HR' & Hns & Hls & _ & ->)%convert_to_d3_Ok.
  assert (E' = E) as -> by congruence.
  assert (R' = R) as -> by congruence. simpl.
  pose proof (extract_nodes_spec E (extract_groups rt E)) as Hn.
  pose proof (extract_links_spec R (extract_relation_types R)) as Hl.
  rewrite Hns in Hn. rewrite Hls in Hl.
  assert (∀ t, t ∈ node_type <$> ns
               ↔ ∃ e, e ∈ filter is_entity E ∧ entity_label e = t) as Htypes.
  { intros t. rewrite list_elem_of_fmap. split.
    - intros (n & -> & [i Hi]%list_elem_of_lookup).
      destruct (Forall2_lookup_r _ _ _ _ _ Hn Hi) as (e & He & _ & Hty & _).
      exists e. split; [by eapply list_elem_of_lookup_2|done].
    - intros (e & [i Hi]%list_elem_of_lookup & <-).
      destruct (Forall2_lookup_l _ _ _ _ _ Hn Hi) as (n & Hin & _ & Hty & _).
      exists n. split; [done|by eapply list_elem_of_lookup_2]. }
  split_and!.
  - symmetry. by eapply Forall2_length.
  - symmetry. by eapply Forall2_length.
  - intros t. rewrite set_order_elem_of, Htypes, elem_of_extract_groups.
    intros (e & [_ He]%list_elem_of_filter & ?). by exists e.
  - intros Hall. apply NoDup_Permutation.
    + apply set_order_NoDup.
    + unfold extract_groups. rewrite sorted_perm. apply set_order_NoDup.
    + intros t. rewrite set_order_elem_of, Htypes, elem_of_extract_groups.
      split; intros (e & He & ?); exists e; split; try done.
      * by apply list_elem_of_filter in He as [_ ?].
      * apply list_elem_of_filter. split; [|done].
        by apply (proj1 (Forall_forall _ _) Hall).
Qed.

Lemma document_counts_and_types_witness :
  let E := [{| e_type := Some "entity"; e_name := Some "A";
               e_entityType := Some "Person"; e_observations := None |};
            {| e_type := Some "note"; e_name := None;
               e_entityType := Some "Animal"; e_observations := None |}] in
  let c := {| entities := Some E; relations := Some [] |} in
  ∃ g, convert_to_d3 runtime_ascending "kg.json" c true = Ok g
       ∧ nodeCount (graph_metadata g) = length (filter is_entity E)
       ∧ linkCount (graph_metadata g)
         = length (filter is_relation (@nil raw_relation))
       ∧ (∀ t, t ∈ entityTypes (graph_metadata g)
               → t ∈ extract_groups runtime_ascending E)
       ∧ (Forall is_entity E
          → entityTypes (graph_metadata g)
            ≡ₚ extract_groups runtime_ascending E).
Proof.
  intros E c. eexists. split; [vm_compute; reflexivity|].
  apply (document_counts_and_types runtime_ascending "kg.json" c true E []
           _ eq_refl eq_refl).
  vm_compute. reflexivity.
Defined.
